(** * Verification of [scripts/utils/utils.ts] (class [Utils])

    A shallow embedding of the helpers of the export tool: string padding and
    trimming, the default export destination, the three destination pickers,
    the batch delivery of downloadable files, the polling waiter and the
    edit-distance routine, then the substring search, the plugin lookups and
    the colour sampler, followed by the properties proved about them.

    Conventions.
    - A JavaScript string is a sequence of code units; it is modelled by
      [string], one character per code unit, so that [String.length] is the
      JavaScript [length].
    - A JavaScript number that holds a count is modelled by [Z] (or [nat]
      where the code only ever produces an index or a length).  The
      durations of [waitUntil] are added and compared as the engine does it,
      in any number system, of which the doubles are one.
    - Calls to the host (Obsidian, Electron, the vault adapter, the export
      log) are recorded in a trace of events; their replies come from the
      host interface, which threads a world state. *)

From Stdlib Require Import List String Ascii ZArith Arith Bool Lia Floats.
Import ListNotations.

Open Scope string_scope.

(* ================================================================== *)
(** * Part I. The embedding *)
(* ================================================================== *)

(** ** JavaScript strings and completions *)

(** An exception raised by a built-in. *)
Inductive JSError : Type :=
| RangeError (message : string).

(** The outcome of evaluating an expression: a value or a thrown error. *)
Inductive Completion (A : Type) : Type :=
| Returned (a : A)
| Thrown (e : JSError).

Arguments Returned {A} a.
Arguments Thrown {A} e.

(** [count] copies of [s], one after the other. *)
Fixpoint repeat_string (s : string) (count : nat) : string :=
  match count with
  | O => ""
  | S k => s ++ repeat_string s k
  end.

(** [String.prototype.repeat]: a negative count raises a [RangeError].
    The message of the error is the engine's own; nothing proved below
    depends on it. *)
Definition String_repeat (s : string) (count : Z) : Completion string :=
  if (count <? 0)%Z
  then Thrown (RangeError "Invalid count value")
  else Returned (repeat_string s (Z.to_nat count)).

(** [s.startsWith(t)] and [s.endsWith(t)]. *)
Definition startsWith (s t : string) : bool := String.prefix t s.

Definition endsWith (s t : string) : bool :=
  (String.length t <=? String.length s)%nat &&
  String.eqb (substring (String.length s - String.length t) (String.length t) s) t.

(** [s.substring(start)] and [s.substring(0, stop)], indices within range. *)
Definition substring_from (s : string) (start : nat) : string :=
  substring start (String.length s - start) s.

Definition substring_to (s : string) (stop : nat) : string :=
  substring 0 stop s.

(** ** [Utils.padStringBeggining], [Utils.trimEnd], [Utils.trimStart] *)

Definition padStringBeggining (str : string) (length : Z) (char : string)
  : Completion string :=
  match String_repeat char (length - Z.of_nat (String.length str)) with
  | Returned padding => Returned (padding ++ str)
  | Thrown e => Thrown e
  end.

Definition trimEnd (inputString trimString : string) : string :=
  if endsWith inputString trimString
  then substring_to inputString (String.length inputString - String.length trimString)
  else inputString.

Definition trimStart (inputString trimString : string) : string :=
  if startsWith inputString trimString
  then substring_from inputString (String.length trimString)
  else inputString.

(** ** The [Path] class

    [utils.ts] imports [Path] from [./path]; that class is not part of the
    sources at hand, so the operations the helpers call are taken as an
    interface.  [pathExists] is the getter [exists], which reads the disk, and
    [vaultPath] is the static [Path.vaultPath]: an instance fixes the disk
    and the vault the helpers run against. *)
Class PathClass (Path : Type) : Type := {
  newPath : string -> Path;                (* new Path(string) *)
  asString : Path -> string;               (* path.asString *)
  directory : Path -> Path;                (* path.directory *)
  absolute : Path -> Path;                 (* path.absolute() *)
  joinString : Path -> string -> Path;     (* path.joinString(string) *)
  extension : Path -> string;              (* path.extension *)
  pathExists : Path -> bool;               (* path.exists *)
  vaultPath : Path                         (* Path.vaultPath *)
}.

(** ** [Downloadable]

    Imported from [./downloadable]; only the fields read by
    [downloadFiles] appear.  The content is a string or a Node [Buffer]. *)
Inductive BufferEncoding : Type :=
| ascii_enc | utf8 | utf16le | ucs2 | base64 | base64url | latin1 | binary | hex.

Definition Buffer : Type := list Byte.byte.

Inductive Content : Type :=
| TextContent (text : string)
| BufferContent (buffer : Buffer).

Record Downloadable (Path : Type) : Type := {
  relativePath : Path;
  relativeDirectory : Path;
  content : Content;
  encoding : option BufferEncoding
}.

Arguments relativePath {Path} _.
Arguments relativeDirectory {Path} _.
Arguments content {Path} _.
Arguments encoding {Path} _.

(** ** Electron dialogs: options and replies *)

Record FileFilter : Type := {
  filterName : string;
  filterExtensions : list string
}.

Record SaveDialogOptions : Type := {
  saveDefaultPath : string;
  saveFilters : list FileFilter
}.

Inductive OpenProperty : Type := openDirectory | openFile.

Record OpenDialogOptions : Type := {
  openDefaultPath : string;
  openProperties : list OpenProperty
}.

(** The reply of [dialog.showSaveDialog]; [filePath] may be missing. *)
Record SaveDialogReturnValue : Type := {
  saveCanceled : bool;
  filePath : option string
}.

(** The reply of [dialog.showOpenDialog]. *)
Record OpenDialogReturnValue : Type := {
  openCanceled : bool;
  filePaths : list string
}.

(** JavaScript truthiness of [result.filePath]: a non-empty string. *)
Definition truthy (value : option string) : bool :=
  match value with
  | Some s => negb (String.eqb s "")
  | None => false
  end.

(** The string held by a truthy [result.filePath]. *)
Definition stringOf (value : option string) : string :=
  match value with
  | Some s => s
  | None => ""
  end.

(** ** Events and the host

    Every call that leaves [Utils] is an event.  The trace of a run lists
    them in the order the calls are made. *)
Inductive Event : Type :=
| Progress (current total : nat) (title message : string) (* ExportLog.progress *)
| LogError (message : string)                               (* ExportLog.error *)
| ShowNotice (message : string)                             (* new Notice *)
| Mkdir (path : string)                                     (* adapter.mkdir *)
| WriteFile (path data : string)                            (* adapter.write *)
| ShowSaveDialog (options : SaveDialogOptions)              (* dialog.showSaveDialog *)
| ShowOpenDialog (options : OpenDialogOptions).             (* dialog.showOpenDialog *)

(** The collaborators whose replies the helpers consume.  [W] is the state
    of the world (disk, user), [E] the values a rejected adapter promise
    carries.  A reply [Some e] of the adapter is a rejection with [e]. *)
Class Host (W E : Type) : Type := {
  adapterMkdir : string -> W -> option E * W;
  adapterWrite : string -> string -> W -> option E * W;
  dialogShowSaveDialog : SaveDialogOptions -> W -> SaveDialogReturnValue * W;
  dialogShowOpenDialog : OpenDialogOptions -> W -> OpenDialogReturnValue * W;
  errorToString : E -> string;                        (* `${error}` *)
  bufferToString : Buffer -> option BufferEncoding -> string; (* buffer.toString(encoding) *)
  toUpperCase : string -> string                      (* string.toUpperCase() *)
}.

(** ** The monad of host interactions

    A computation takes the world, and returns its value, the new world and
    the events it emitted.  [await] is sequencing: the helpers run as one
    task, which suspends until the awaited call replies. *)
Section Interaction.

Context {W : Type}.

Definition IO (A : Type) : Type := W -> A * W * list Event.

Definition ret {A : Type} (a : A) : IO A := fun w => (a, w, []).

Definition bind {A B : Type} (m : IO A) (k : A -> IO B) : IO B :=
  fun w =>
    let '(a, w1, t1) := m w in
    let '(b, w2, t2) := k a w1 in
    (b, w2, (t1 ++ t2)%list).

Definition emit (e : Event) : IO unit := fun w => (tt, w, [e]).

(** A host call: the event, then the reply. *)
Definition call {A : Type} (e : Event) (reply : W -> A * W) : IO A :=
  fun w => let '(a, w1) := reply w in (a, w1, [e]).

Definition result {A : Type} (r : A * W * list Event) : A := fst (fst r).
Definition world {A : Type} (r : A * W * list Event) : W := snd (fst r).
Definition trace {A : Type} (r : A * W * list Event) : list Event := snd r.

End Interaction.

Arguments IO W A : clear implicits.

Notation "x <- m ;; k" := (bind m (fun x => k))
  (at level 61, m at next level, right associativity).
Notation "m ;;; k" := (bind m (fun _ => k))
  (at level 61, right associativity).

(** The body of a [try] block made of awaited calls: the first rejection
    skips what follows. *)
Definition andThen {W E : Type} (m k : IO W (option E)) : IO W (option E) :=
  r <- m ;;
  match r with
  | Some e => ret (Some e)
  | None => k
  end.

Section Utils.

Context {Path : Type} {paths : PathClass Path}.
Context {W E : Type} {host : Host W E}.

(** ** The destination pickers

    [Platform.isDesktopApp] is read from the platform; it is an argument
    here.  [showAllFilesOption] defaults to [true] in the source. *)

Definition showSaveDialog (isDesktopApp : bool) (defaultPath : Path)
    (defaultFileName : string) (showAllFilesOption : bool) : IO W (option Path) :=
  if isDesktopApp then
    let absoluteDefaultPath :=
      joinString (absolute (directory defaultPath)) defaultFileName in
    let filters :=
      [ {| filterName :=
             toUpperCase (trimStart (extension absoluteDefaultPath) ".") ++ " Files";
           filterExtensions := [trimStart (extension absoluteDefaultPath) "."] |} ] in
    let filters :=
      if showAllFilesOption
      then (filters ++ [ {| filterName := "All Files"; filterExtensions := ["*"] |} ])%list
      else filters in
    let options :=
      {| saveDefaultPath := asString absoluteDefaultPath; saveFilters := filters |} in
    result <- call (ShowSaveDialog options) (dialogShowSaveDialog options) ;;
    if negb (saveCanceled result) && truthy (filePath result)
    then ret (Some (newPath (stringOf (filePath result))))
    else ret None
  else
    let exportPath := joinString (directory defaultPath) defaultFileName in
    emit (ShowNotice ("Exporting to " ++ asString exportPath)) ;;;
    ret (Some exportPath).

Definition showSelectFolderDialog (isDesktopApp : bool) (defaultPath : Path)
  : IO W (option Path) :=
  if isDesktopApp then
    let options :=
      {| openDefaultPath := asString defaultPath; openProperties := [openDirectory] |} in
    result <- call (ShowOpenDialog options) (dialogShowOpenDialog options) ;;
    if negb (openCanceled result) && (0 <? List.length (filePaths result))%nat
    then ret (Some (newPath (nth 0 (filePaths result) "")))
    else ret None
  else
    emit (ShowNotice ("Using default folder: " ++ asString defaultPath)) ;;;
    ret (Some defaultPath).

Definition showSelectFileDialog (isDesktopApp : bool) (defaultPath : Path)
  : IO W (option Path) :=
  if isDesktopApp then
    let options :=
      {| openDefaultPath := asString defaultPath; openProperties := [openFile] |} in
    result <- call (ShowOpenDialog options) (dialogShowOpenDialog options) ;;
    if negb (openCanceled result) && (0 <? List.length (filePaths result))%nat
    then ret (Some (newPath (nth 0 (filePaths result) "")))
    else ret None
  else
    emit (ShowNotice ("Using default file: " ++ asString defaultPath)) ;;;
    ret (Some defaultPath).

(** ** [Utils.idealDefaultPath]

    [exportPath] is the setting [Settings.exportPath]. *)
Definition idealDefaultPath (exportPath : string) : Path :=
  let lastPath := newPath exportPath in
  if negb (String.eqb (asString lastPath) "") && pathExists lastPath
  then directory lastPath
  else vaultPath.

(** ** [Utils.downloadFiles] *)

(** The second argument of [adapter.write]. *)
Definition contentString (file : Downloadable Path) : string :=
  match content file with
  | TextContent text => text
  | BufferContent buffer => bufferToString buffer (encoding file)
  end.

Definition dirPathOf (rootPath : Path) (file : Downloadable Path) : string :=
  asString (joinString rootPath (asString (relativeDirectory file))).

Definition filePathOf (rootPath : Path) (file : Downloadable Path) : string :=
  asString (joinString rootPath (asString (relativePath file))).

(** The [try] block: make the directory, then write the file. *)
Definition tryWrite (rootPath : Path) (file : Downloadable Path) : IO W (option E) :=
  let dirPath := dirPathOf rootPath file in
  andThen (call (Mkdir dirPath) (adapterMkdir dirPath))
    (let filePath := filePathOf rootPath file in
     call (WriteFile filePath (contentString file))
          (adapterWrite filePath (contentString file))).

(** The [catch] block. *)
Definition catchWrite (file : Downloadable Path) (error : E) : IO W unit :=
  emit (LogError ("Failed to write file " ++ asString (relativePath file)
                    ++ ": " ++ errorToString error)) ;;;
  emit (ShowNotice ("Failed to write file " ++ asString (relativePath file))).

(** One turn of the loop, for [file = files[i]]. *)
Definition downloadFile (i total : nat) (file : Downloadable Path) (rootPath : Path)
  : IO W unit :=
  emit (Progress i total "Downloading Files"
          ("Downloading: " ++ asString (relativePath file))) ;;;
  outcome <- tryWrite rootPath file ;;
  match outcome with
  | Some error => catchWrite file error
  | None => ret tt
  end.

(** The loop from index [i] on; [rest] is [files] from [i]. *)
Fixpoint downloadFilesFrom (i total : nat) (rest : list (Downloadable Path))
    (rootPath : Path) : IO W unit :=
  match rest with
  | [] => ret tt
  | file :: rest' =>
      downloadFile i total file rootPath ;;;
      downloadFilesFrom (S i) total rest' rootPath
  end.

Definition downloadFiles (files : list (Downloadable Path)) (rootPath : Path)
  : IO W unit :=
  downloadFilesFrom 0 (List.length files) files rootPath.

End Utils.

(** ** Numbers

    The durations of [waitUntil] are JavaScript numbers, that is binary64
    floating point: [timer += interval] rounds, and [>=] is false as soon
    as one side is not a number.  The waiter is modelled over any number
    system with a zero, an addition and the comparison [>=]; the doubles are
    one such system, the integers another. *)
Class JSNumber (Num : Type) : Type := {
  numberZero : Num;                  (* 0 *)
  numberAdd : Num -> Num -> Num;     (* x + y *)
  numberGeq : Num -> Num -> bool     (* x >= y *)
}.

#[export] Instance doubles : JSNumber float := {|
  numberZero := 0%float;
  numberAdd := PrimFloat.add;
  numberGeq := fun x y => PrimFloat.leb y x
|}.

#[export] Instance integers : JSNumber Z := {|
  numberZero := 0%Z;
  numberAdd := Z.add;
  numberGeq := Z.geb
|}.

(** ** [Utils.waitUntil]

    The event loop runs the interval callback once per tick, as long as the
    interval is active.  [condition n] is what the predicate returns the
    [n]-th time it is called (from 0).  The promise is settled when
    [settled] is [Some]. *)
Inductive TimerEvent (Num : Type) : Type :=
| SetInterval (delay : Num)
| ClearInterval
| Resolve (value : bool).

Arguments SetInterval {Num} delay.
Arguments ClearInterval {Num}.
Arguments Resolve {Num} value.

Record Waiter (Num : Type) : Type := {
  timer : Num;                        (* the variable [timer] *)
  intervalActive : bool;              (* set by setInterval, unset by clearInterval *)
  settled : option bool;              (* the value the promise resolved to *)
  samples : nat;                      (* calls of [condition] so far *)
  timerLog : list (TimerEvent Num)    (* timer calls and resolution, in order *)
}.

Arguments timer {Num} _.
Arguments intervalActive {Num} _.
Arguments settled {Num} _.
Arguments samples {Num} _.
Arguments timerLog {Num} _.

Section WaitUntil.

Context {Num : Type} {numbers : JSNumber Num}.

Variable condition : nat -> bool.
Variables timeout interval : Num.

(** The callback given to [setInterval]. *)
Definition intervalCallback (s : Waiter Num) : Waiter Num :=
  if condition (samples s) then
    {| timer := timer s;
       intervalActive := false;
       settled := Some true;
       samples := S (samples s);
       timerLog := (timerLog s ++ [ClearInterval; Resolve true])%list |}
  else
    let timer' := numberAdd (timer s) interval in
    if numberGeq timer' timeout then
      {| timer := timer';
         intervalActive := false;
         settled := Some false;
         samples := S (samples s);
         timerLog := (timerLog s ++ [ClearInterval; Resolve false])%list |}
    else
      {| timer := timer';
         intervalActive := intervalActive s;
         settled := settled s;
         samples := S (samples s);
         timerLog := timerLog s |}.

(** One tick of the event loop: a cleared interval does not fire. *)
Definition tick (s : Waiter Num) : Waiter Num :=
  if intervalActive s then intervalCallback s else s.

Fixpoint runTicks (ticks : nat) (s : Waiter Num) : Waiter Num :=
  match ticks with
  | O => s
  | S n => runTicks n (tick s)
  end.

(** The state [ticks] ticks after the call. *)
Definition waitUntil (ticks : nat) : Waiter Num :=
  if condition 0 then
    {| timer := numberZero; intervalActive := false; settled := Some true;
       samples := 1; timerLog := [Resolve true] |}
  else
    runTicks ticks
      {| timer := numberZero; intervalActive := true; settled := None;
         samples := 1; timerLog := [SetInterval interval] |}.

(** The accumulated wait time after [n] ticks: [timer], to which
    [interval] was added [n] times, starting from 0. *)
Fixpoint accumulated (n : nat) : Num :=
  match n with
  | O => numberZero
  | S k => numberAdd (accumulated k) interval
  end.

(** The waiter after [n] ticks none of which settled the promise. *)
Definition pending (n : nat) : Waiter Num :=
  {| timer := accumulated n; intervalActive := true; settled := None;
     samples := S n; timerLog := [SetInterval interval] |}.

(** The waiter once the predicate was found true at tick [n], and once the
    timeout was reached at tick [n]. *)
Definition resolvedTrue (n : nat) : Waiter Num :=
  {| timer := accumulated (n - 1); intervalActive := false;
     settled := Some true; samples := S n;
     timerLog := [SetInterval interval; ClearInterval; Resolve true] |}.

Definition resolvedFalse (n : nat) : Waiter Num :=
  {| timer := accumulated n; intervalActive := false;
     settled := Some false; samples := S n;
     timerLog := [SetInterval interval; ClearInterval; Resolve false] |}.

(** Tick [m] settles nothing: the predicate is false there and the
    accumulated time is not yet at the timeout. *)
Definition quietTick (m : nat) : Prop :=
  condition m = false /\ numberGeq (accumulated m) timeout = false.

End WaitUntil.

Arguments accumulated {Num numbers} interval n.
Arguments pending {Num numbers} interval n.
Arguments resolvedTrue {Num numbers} interval n.
Arguments resolvedFalse {Num numbers} interval n.

(** The doubles nearest to 0.1 and to 0.8. *)
Definition oneTenth : float := 0x1.999999999999ap-4%float.
Definition eightTenths : float := 0x1.999999999999ap-1%float.

(** ** [Utils.levenshteinDistance]

    [arr] is an array of rows of numbers.  The code only assigns at an index
    within the array or at its length (which appends); [arraySet] is that
    assignment.  Reads are [cellAt]; every read of the code is of a cell
    written before. *)
Fixpoint arraySet {X : Type} (a : list X) (index : nat) (x : X) : list X :=
  match a, index with
  | [], _ => [x]
  | _ :: rest, O => x :: rest
  | y :: rest, S k => y :: arraySet rest k x
  end.

Definition cellAt (arr : list (list nat)) (i j : nat) : nat :=
  nth j (nth i arr []) 0.

(** [Math.min] of three numbers. *)
Definition min3 (a b c : nat) : nat := Nat.min a (Nat.min b c).

(** [string1[j - 1] === string2[i - 1]], on indexed code units. *)
Definition strictEq (a b : option ascii) : bool :=
  match a, b with
  | Some x, Some y => Ascii.eqb x y
  | None, None => true
  | _, _ => false
  end.

(** The right-hand side of the assignment to [arr[i][j]]. *)
Definition levenshteinCell (string1 string2 : string) (arr : list (list nat))
    (i j : nat) : nat :=
  if (i =? 0)%nat then j
  else min3 (cellAt arr (i - 1) j + 1)
            (cellAt arr i (j - 1) + 1)
            (cellAt arr (i - 1) (j - 1)
             + (if strictEq (String.get (j - 1) string1) (String.get (i - 1) string2)
                then 0 else 1)).

(** The body of the inner loop: the assignment to [arr[i][j]]. *)
Definition levenshteinAssign (string1 string2 : string) (i : nat)
    (arr : list (list nat)) (j : nat) : list (list nat) :=
  arraySet arr i (arraySet (nth i arr []) j (levenshteinCell string1 string2 arr i j)).

(** The inner loop, [j] from 1 to [string1.length]. *)
Definition levenshteinRow (string1 string2 : string) (i : nat)
    (arr : list (list nat)) : list (list nat) :=
  fold_left (levenshteinAssign string1 string2 i) (seq 1 (String.length string1)) arr.

(** The body of the outer loop: [arr[i] = [i]], then the inner loop. *)
Definition levenshteinTurn (string1 string2 : string)
    (arr : list (list nat)) (i : nat) : list (list nat) :=
  levenshteinRow string1 string2 i (arraySet arr i [i]).

(** The outer loop, [i] from 0 to [string2.length]. *)
Definition levenshteinTable (string1 string2 : string) : list (list nat) :=
  fold_left (levenshteinTurn string1 string2) (seq 0 (S (String.length string2))) [].

Definition levenshteinDistance (string1 string2 : string) : nat :=
  if (String.length string1 =? 0)%nat then String.length string2
  else if (String.length string2 =? 0)%nat then String.length string1
  else cellAt (levenshteinTable string1 string2)
              (String.length string2) (String.length string1).

(** ** The reference edit distance

    One edit inserts, deletes or replaces a single character, anywhere in
    the string.  [edits n a b]: [n] edits in a row turn [a] into [b].  The
    edit distance of [a] and [b] is the least such [n]. *)
Inductive edit : list ascii -> list ascii -> Prop :=
| edit_insert (x : ascii) (l : list ascii) : edit l (x :: l)
| edit_delete (x : ascii) (l : list ascii) : edit (x :: l) l
| edit_replace (x y : ascii) (l : list ascii) : x <> y -> edit (x :: l) (y :: l)
| edit_later (x : ascii) (l l' : list ascii) : edit l l' -> edit (x :: l) (x :: l').

Inductive edits : nat -> list ascii -> list ascii -> Prop :=
| edits_none (l : list ascii) : edits 0 l l
| edits_more (n : nat) (a b c : list ascii) :
    edit a b -> edits n b c -> edits (S n) a c.

Definition editDistance (a b : string) (d : nat) : Prop :=
  edits d (list_ascii_of_string a) (list_ascii_of_string b) /\
  forall n, edits n (list_ascii_of_string a) (list_ascii_of_string b) -> d <= n.

(** The recurrence of Wagner and Fischer, on lists, from the front. *)
Definition substitutionCost (x y : ascii) : nat :=
  if Ascii.eqb x y then 0 else 1.

Fixpoint lev (a b : list ascii) : nat :=
  match a with
  | [] => List.length b
  | x :: a' =>
      (fix levRow (b : list ascii) : nat :=
         match b with
         | [] => List.length a
         | y :: b' =>
             min3 (lev a' b + 1) (levRow b' + 1) (lev a' b' + substitutionCost x y)
         end) b
  end.

(** What the table holds: [arr[i][j]] is the value of the recurrence for
    the first [j] characters of [string1] and the first [i] characters of
    [string2]. *)
Definition prefixDistance (string1 string2 : string) (i j : nat) : nat :=
  lev (firstn j (list_ascii_of_string string1))
      (firstn i (list_ascii_of_string string2)).

(** Row [i], filled up to [cells] cells, and the first [rows] full rows. *)
Definition filledRow (string1 string2 : string) (i cells : nat) : list nat :=
  map (prefixDistance string1 string2 i) (seq 0 cells).

Definition filledRows (string1 string2 : string) (rows : nat) : list (list nat) :=
  map (fun i => filledRow string1 string2 i (S (String.length string1))) (seq 0 rows).

(** The table while row [i] is being filled: [i] full rows, then the first
    [S m] cells of row [i]. *)
Definition filling (string1 string2 : string) (i m : nat) : list (list nat) :=
  (filledRows string1 string2 i ++ [filledRow string1 string2 i (S m)])%list.

(** ** Fixtures

    A concrete path class and a concrete host, for running the helpers on
    examples. *)

(** Modelled from the spec: the [Path] class of [./path], which is not part
    of the sources: "an abstract filesystem location, decomposed into
    directory and leaf name, with derived operations (join, absolute form,
    existence check, extension)".  Here a path is its string, with [/] as
    separator; every fixture path is already absolute. *)
Fixpoint beforeLastSlash (s : string) : option string :=
  match s with
  | EmptyString => None
  | String c rest =>
      match beforeLastSlash rest with
      | Some d => Some (String c d)
      | None => if Ascii.eqb c "/" then Some EmptyString else None
      end
  end.

Fixpoint fromLastDot (s : string) : option string :=
  match s with
  | EmptyString => None
  | String c rest =>
      match fromLastDot rest with
      | Some e => Some e
      | None => if Ascii.eqb c "." then Some s else None
      end
  end.

Definition posixPaths (disk : list string) (vault : string) : PathClass string := {|
  newPath := fun s => s;
  asString := fun p => p;
  directory := fun p => match beforeLastSlash p with Some d => d | None => "" end;
  absolute := fun p => p;
  joinString := fun p s => p ++ "/" ++ s;
  extension := fun p => match fromLastDot p with Some e => e | None => "" end;
  pathExists := fun p => existsb (String.eqb p) disk;
  vaultPath := vault
|}.

(** Upper case of the letters a to z; other code units are kept. *)
Definition upperAscii (c : ascii) : ascii :=
  let n := nat_of_ascii c in
  if ((97 <=? n) && (n <=? 122))%nat then ascii_of_nat (n - 32) else c.

Fixpoint upperString (s : string) : string :=
  match s with
  | EmptyString => EmptyString
  | String c rest => String (upperAscii c) (upperString rest)
  end.

(** A host whose world is the list of files written so far.  Writing to
    [failing] is rejected; the dialogs always give the same replies. *)
Definition scriptedHost (failing : string) (saveReply : SaveDialogReturnValue)
    (openReply : OpenDialogReturnValue) : Host (list string) string := {|
  adapterMkdir := fun _ w => (None, w);
  adapterWrite := fun path _ w =>
    if String.eqb path failing then (Some "EACCES: permission denied", w)
    else (None, path :: w);
  dialogShowSaveDialog := fun _ w => (saveReply, w);
  dialogShowOpenDialog := fun _ w => (openReply, w);
  errorToString := fun e => "Error: " ++ e;
  bufferToString := fun buffer _ => string_of_list_byte buffer;
  toUpperCase := upperString
|}.

Definition noReplySave : SaveDialogReturnValue :=
  {| saveCanceled := true; filePath := None |}.

Definition noReplyOpen : OpenDialogReturnValue :=
  {| openCanceled := true; filePaths := [] |}.

(** A vault at [/vault] with one exported file on disk. *)
Definition vaultPaths : PathClass string :=
  posixPaths ["/vault/export/index.html"] "/vault".

(** A host where the user cancels every dialog and where the file
    [/out/css/site.css] cannot be written. *)
Definition cancelingHost : Host (list string) string :=
  scriptedHost "/out/css/site.css" noReplySave noReplyOpen.

(** Three files of an exported site. *)
Definition siteFiles : list (Downloadable string) :=
  [ {| relativePath := "index.html"; relativeDirectory := "";
       content := TextContent "<html></html>"; encoding := Some utf8 |};
    {| relativePath := "css/site.css"; relativeDirectory := "css";
       content := TextContent "body {}"; encoding := Some utf8 |};
    {| relativePath := "js/app.js"; relativeDirectory := "js";
       content := BufferContent [Byte.x61; Byte.x3b]; encoding := Some utf8 |} ].

#[export] Existing Instance vaultPaths.
#[export] Existing Instance cancelingHost.

(** ** Observations on traces *)

Definition isProgress (e : Event) : bool :=
  match e with Progress _ _ _ _ => true | _ => false end.

Definition isWriteFile (e : Event) : bool :=
  match e with WriteFile _ _ => true | _ => false end.

Definition isLogError (e : Event) : bool :=
  match e with LogError _ => true | _ => false end.

Definition isShowNotice (e : Event) : bool :=
  match e with ShowNotice _ => true | _ => false end.

Definition isDialog (e : Event) : bool :=
  match e with ShowSaveDialog _ | ShowOpenDialog _ => true | _ => false end.

(** What one turn of the delivery loop may come to. *)
Inductive Outcome (E : Type) : Type :=
| Written
| MkdirFailed (error : E)
| WriteFailed (error : E).

Arguments Written {E}.
Arguments MkdirFailed {E} error.
Arguments WriteFailed {E} error.

Section ExpectedTrace.

Context {Path : Type} {paths : PathClass Path}.
Context {W E : Type} {host : Host W E}.

Definition progressOf (i total : nat) (file : Downloadable Path) : Event :=
  Progress i total "Downloading Files" ("Downloading: " ++ asString (relativePath file)).

Definition writeOf (rootPath : Path) (file : Downloadable Path) : Event :=
  WriteFile (filePathOf rootPath file) (contentString file).

Definition failureLog (file : Downloadable Path) (error : E) : Event :=
  LogError ("Failed to write file " ++ asString (relativePath file)
              ++ ": " ++ errorToString error).

Definition failureNotice (file : Downloadable Path) : Event :=
  ShowNotice ("Failed to write file " ++ asString (relativePath file)).

(** The events of the turn for [files[i]], by outcome: the progress
    report first, then the attempt, then the report of a failure. *)
Definition turnTrace (i total : nat) (file : Downloadable Path) (rootPath : Path)
    (outcome : Outcome E) : list Event :=
  progressOf i total file ::
  match outcome with
  | Written =>
      [Mkdir (dirPathOf rootPath file); writeOf rootPath file]
  | MkdirFailed error =>
      [Mkdir (dirPathOf rootPath file); failureLog file error; failureNotice file]
  | WriteFailed error =>
      [Mkdir (dirPathOf rootPath file); writeOf rootPath file;
       failureLog file error; failureNotice file]
  end.

(** The turns for [rest], in list order, from index [i]. *)
Fixpoint turnsTrace (i total : nat) (rest : list (Downloadable Path))
    (rootPath : Path) (outcomes : list (Outcome E)) : list Event :=
  match rest, outcomes with
  | file :: rest', outcome :: outcomes' =>
      (turnTrace i total file rootPath outcome
       ++ turnsTrace (S i) total rest' rootPath outcomes')%list
  | _, _ => []
  end.

(** The progress reports for [rest], from index [i]. *)
Fixpoint progressReports (i total : nat) (rest : list (Downloadable Path))
  : list Event :=
  match rest with
  | [] => []
  | file :: rest' => progressOf i total file :: progressReports (S i) total rest'
  end.

(** The outcome of the turn for [file] in world [w], and the world it
    leaves, read off the replies of the adapter. *)
Definition turnOutcome (rootPath : Path) (file : Downloadable Path) (w : W)
  : Outcome E * W :=
  match adapterMkdir (dirPathOf rootPath file) w with
  | (Some error, w1) => (MkdirFailed error, w1)
  | (None, w1) =>
      match adapterWrite (filePathOf rootPath file) (contentString file) w1 with
      | (Some error, w2) => (WriteFailed error, w2)
      | (None, w2) => (Written, w2)
      end
  end.

(** The outcomes of the turns for [rest] from world [w], in order. *)
Fixpoint runOutcomes (rest : list (Downloadable Path)) (rootPath : Path) (w : W)
  : list (Outcome E) :=
  match rest with
  | [] => []
  | file :: rest' =>
      let '(outcome, w1) := turnOutcome rootPath file w in
      outcome :: runOutcomes rest' rootPath w1
  end.

(** What the adapter does with [file], in every world: its directory is
    made without error; its write succeeds; its write is rejected. *)
Definition mkdirSucceeds (rootPath : Path) (file : Downloadable Path) : Prop :=
  forall w : W, fst (adapterMkdir (dirPathOf rootPath file) w) = None.

Definition writeSucceeds (rootPath : Path) (file : Downloadable Path) : Prop :=
  forall w : W,
    fst (adapterWrite (filePathOf rootPath file) (contentString file) w) = None.

Definition writeFails (rootPath : Path) (file : Downloadable Path) : Prop :=
  forall w : W,
    fst (adapterWrite (filePathOf rootPath file) (contentString file) w) <> None.

End ExpectedTrace.

(** ** [Utils.includesAny]

    [str.includes(substring)]: [substring] occurs in [str] at some position,
    the search going from the left. *)
Fixpoint includes (str substring : string) : bool :=
  String.prefix substring str ||
  match str with
  | EmptyString => false
  | String _ rest => includes rest substring
  end.

(** The loop returns at the first substring found. *)
Fixpoint includesAny (str : string) (substrings : list string) : bool :=
  match substrings with
  | [] => false
  | substring :: rest =>
      if includes str substring then true else includesAny str rest
  end.

(** ** [Utils.getPluginIDs], [Utils.getPluginManifest]

    [app.plugins]: the set of enabled plugin ids, in its iteration order
    (a [Set] holds no id twice), and the lookup [manifests[id]], which is
    [None] where the source reads [undefined].  [PluginManifest] is a type
    of the Obsidian API. *)
Record Plugins (PluginManifest : Type) : Type := {
  enabledPlugins : list string;
  manifests : string -> option PluginManifest
}.

Arguments enabledPlugins {PluginManifest} _.
Arguments manifests {PluginManifest} _ _.

Definition isDefined {X : Type} (value : option X) : bool :=
  match value with
  | Some _ => true
  | None => false
  end.

Definition getPluginIDs {PluginManifest : Type} (plugins : Plugins PluginManifest)
  : list string :=
  let pluginsArray := enabledPlugins plugins in
  filter (fun id => isDefined (manifests plugins id)) pluginsArray.

(** [manifests[pluginID] ?? null]: [None] is [null]. *)
Definition getPluginManifest {PluginManifest : Type}
    (plugins : Plugins PluginManifest) (pluginID : string) : option PluginManifest :=
  manifests plugins pluginID.

(** A host that counts the calls of the adapter: the world holds the
    number of [mkdir] calls and of [write] calls made so far.  The call of
    [mkdir] that finds [failingMkdir] earlier calls is rejected, and so is
    the call of [write] that finds [failingWrite] earlier calls; all other
    calls succeed.  The user cancels every dialog. *)
Definition isCount (target : option nat) (count : nat) : bool :=
  match target with
  | Some n => Nat.eqb n count
  | None => false
  end.

Definition countingHost (failingMkdir failingWrite : option nat)
  : Host (nat * nat) string := {|
  adapterMkdir := fun _ w =>
    (if isCount failingMkdir (fst w) then Some "EPERM: operation not permitted"
     else None,
     (S (fst w), snd w));
  adapterWrite := fun _ _ w =>
    (if isCount failingWrite (snd w) then Some "ENOSPC: no space left on device"
     else None,
     (fst w, S (snd w)));
  dialogShowSaveDialog := fun _ w => (noReplySave, w);
  dialogShowOpenDialog := fun _ w => (noReplyOpen, w);
  errorToString := fun e => "Error: " ++ e;
  bufferToString := fun buffer _ => string_of_list_byte buffer;
  toUpperCase := upperString
|}.

(** Three files of one directory, the first of them listed twice. *)
Definition repeatedFiles : list (Downloadable string) :=
  [ {| relativePath := "css/a.css"; relativeDirectory := "css";
       content := TextContent "a {}"; encoding := Some utf8 |};
    {| relativePath := "css/a.css"; relativeDirectory := "css";
       content := TextContent "a {}"; encoding := Some utf8 |};
    {| relativePath := "css/b.css"; relativeDirectory := "css";
       content := TextContent "b {}"; encoding := Some utf8 |} ].

(** ** Further observations on deliveries *)

Definition isMkdir (e : Event) : bool :=
  match e with Mkdir _ => true | _ => false end.

Section DeliveryObservations.

Context {Path : Type} {paths : PathClass Path}.
Context {W E : Type} {host : Host W E}.

Definition mkdirOf (rootPath : Path) (file : Downloadable Path) : Event :=
  Mkdir (dirPathOf rootPath file).

(** The adapter rejects the creation of the directory of [file], in every
    world. *)
Definition mkdirFails (rootPath : Path) (file : Downloadable Path) : Prop :=
  forall w : W, fst (adapterMkdir (dirPathOf rootPath file) w) <> None.

End DeliveryObservations.

(** A host that refuses to create the directory [locked] and accepts
    everything else; the user cancels every dialog. *)
Definition lockedHost (locked : string) : Host (list string) string := {|
  adapterMkdir := fun path w =>
    if String.eqb path locked then (Some "EPERM: operation not permitted", w)
    else (None, w);
  adapterWrite := fun path _ w => (None, path :: w);
  dialogShowSaveDialog := fun _ w => (noReplySave, w);
  dialogShowOpenDialog := fun _ w => (noReplyOpen, w);
  errorToString := fun e => "Error: " ++ e;
  bufferToString := fun buffer _ => string_of_list_byte buffer;
  toUpperCase := upperString
|}.

(** Hosts where the user confirms a choice, and where the dialog comes
    back without a selection. *)
Definition confirmingHost : Host (list string) string :=
  scriptedHost ""
    {| saveCanceled := false; filePath := Some "/vault/out/site.html" |}
    {| openCanceled := false; filePaths := ["/vault/notes"; "/vault/attachments"] |}.

Definition emptyHandedHost : Host (list string) string :=
  scriptedHost ""
    {| saveCanceled := false; filePath := Some "" |}
    {| openCanceled := false; filePaths := [] |}.

(** ** [Utils.sampleCSSColorHex] *)

(** *** The regular expression of [toColorObject]

    [/rgb?\((\d+),\s*(\d+),\s*(\d+)\)/] is a sequence of items: a
    character, an optional character, or a greedy repetition of a character
    class, captured or not.  Matching backtracks as in JavaScript: an
    optional character and a repetition first take as much as they can and
    give back when what follows does not match. *)
Inductive CharClass : Type :=
| digitClass      (* \d *)
| spaceClass.     (* \s *)

(** Membership, on code units below 256: the decimal digits; tab, line
    feed, vertical tab, form feed, carriage return, space and no-break
    space. *)
Definition inClass (class : CharClass) (c : ascii) : bool :=
  let n := nat_of_ascii c in
  match class with
  | digitClass => ((48 <=? n) && (n <=? 57))%nat
  | spaceClass => (((9 <=? n) && (n <=? 13)) || (n =? 32) || (n =? 160))%nat
  end.

Inductive Item : Type :=
| Literal (c : ascii)
| Optional (c : ascii)
| Repeat (class : CharClass) (atLeast : nat) (captured : bool).

(** A greedy repetition: [taken] is what it has consumed so far;
    [continue] matches what follows the repetition. *)
Fixpoint matchRepeat {R : Type} (member : ascii -> bool) (atLeast : nat)
    (continue : string -> string -> option R) (input taken : string) : option R :=
  let stop :=
    if (atLeast <=? String.length taken)%nat then continue input taken else None in
  match input with
  | String c rest =>
      if member c then
        match matchRepeat member atLeast continue rest (taken ++ String c "") with
        | Some found => Some found
        | None => stop
        end
      else stop
  | EmptyString => stop
  end.

(** A match of [items] at the start of [input]: the captures, in order. *)
Fixpoint matchItems (items : list Item) (input : string) (captures : list string)
  : option (list string) :=
  match items with
  | [] => Some captures
  | Literal c :: rest =>
      match input with
      | String x input' =>
          if Ascii.eqb x c then matchItems rest input' captures else None
      | EmptyString => None
      end
  | Optional c :: rest =>
      match input with
      | String x input' =>
          if Ascii.eqb x c then
            match matchItems rest input' captures with
            | Some found => Some found
            | None => matchItems rest input captures
            end
          else matchItems rest input captures
      | EmptyString => matchItems rest input captures
      end
  | Repeat class atLeast captured :: rest =>
      matchRepeat (inClass class) atLeast
        (fun input' taken =>
           matchItems rest input'
             (if captured then (captures ++ [taken])%list else captures))
        input ""
  end.

(** [str.match(regexp)] without the global flag: the match that starts
    leftmost; [None] is [null]. *)
Fixpoint regExpMatch (items : list Item) (input : string) : option (list string) :=
  match matchItems items input [] with
  | Some captures => Some captures
  | None =>
      match input with
      | EmptyString => None
      | String _ rest => regExpMatch items rest
      end
  end.

Definition rgbPattern : list Item :=
  [ Literal "r"; Literal "g"; Optional "b"; Literal "(";
    Repeat digitClass 1 true; Literal ","; Repeat spaceClass 0 false;
    Repeat digitClass 1 true; Literal ","; Repeat spaceClass 0 false;
    Repeat digitClass 1 true; Literal ")" ]%char.

(** *** Numbers and their digits *)

(** [parseInt] of a run of decimal digits, which is all the expression
    captures.  The value is exact; JavaScript returns the nearest double,
    which is the same number up to 2^53. *)
Definition digitValue (c : ascii) : nat := nat_of_ascii c - 48.

Fixpoint parseDigits (value : nat) (digits : string) : nat :=
  match digits with
  | EmptyString => value
  | String c rest => parseDigits (value * 10 + digitValue c) rest
  end.

Definition parseInt (digits : string) : nat := parseDigits 0 digits.

(** [n.toString(radix)] for a natural number and a radix from 2 to 16. *)
Definition digitChar (d : nat) : ascii :=
  nth d (list_ascii_of_string "0123456789abcdef") "0"%char.

Fixpoint digitsOf (radix fuel n : nat) (digits : string) : string :=
  match fuel with
  | O => digits
  | S fuel' =>
      let digits' := String (digitChar (n mod radix)) digits in
      if (n / radix =? 0)%nat then digits'
      else digitsOf radix fuel' (n / radix) digits'
  end.

Definition Number_toString (n radix : nat) : string :=
  digitsOf radix (S n) n "".

(** *** The colour sampler *)

Record ColorObject : Type := {
  red : nat;
  green : nat;
  blue : nat;
  alpha : nat
}.

(** The nested function [toColorObject]. *)
Definition toColorObject (str : string) : option ColorObject :=
  match regExpMatch rgbPattern str with
  | Some [m1; m2; m3] =>
      Some {| red := parseInt m1; green := parseInt m2; blue := parseInt m3;
              alpha := 1 |}
  | _ => None
  end.

(** The floating-point numbers of the opacity are kept abstract. *)
Class Floats (Float : Type) : Type := {
  parseFloat : string -> Float;
  isNaN : Float -> bool;
  ofNat : nat -> Float;
  times : Float -> Float -> Float
}.

(** The document: the computed colour and opacity of a hidden [div] whose
    colour is [var(variable)], as a child of [testParentEl]. *)
Class Document (Element : Type) : Type := {
  computedColor : string -> Element -> string;
  computedOpacity : string -> Element -> string
}.

Inductive DomEvent : Type :=
| CreateElement (tag : string)
| SetProperty (property value : string)
| AppendChild
| GetComputedStyle
| RemoveElement.

(** The object returned: its fields [a] and [hex]. *)
Record Sample (Float : Type) : Type := {
  sampleA : Float;
  sampleHex : string
}.

Arguments sampleA {Float} _.
Arguments sampleHex {Float} _.

(** Sequencing of expressions that may throw. *)
Definition andWith {A B : Type} (m : Completion A) (k : A -> Completion B)
  : Completion B :=
  match m with
  | Returned x => k x
  | Thrown e => Thrown e
  end.

Section Sampler.

Context {Element Float : Type} {document : Document Element} {floats : Floats Float}.

(** The events are those up to [testEl.remove()]; the result is the value
    of the [return] expression, or what it throws.  [opacityValue] is the
    variable [alpha] of the source. *)
Definition sampleCSSColorHex (variable : string) (testParentEl : Element)
  : Completion (Sample Float) * list DomEvent :=
  let calls :=
    [ CreateElement "div"; SetProperty "display" "none";
      SetProperty "color" ("var(" ++ variable ++ ")"); AppendChild;
      GetComputedStyle; GetComputedStyle; RemoveElement ] in
  let col := computedColor variable testParentEl in
  let opacity := computedOpacity variable testParentEl in
  let color := toColorObject col in
  let opacityValue := parseFloat opacity in
  let opacityValue := if isNaN opacityValue then ofNat 1 else opacityValue in
  (match color with
   | Some color =>
       andWith (padStringBeggining (Number_toString (red color) 16) 2 "0") (fun r =>
       andWith (padStringBeggining (Number_toString (green color) 16) 2 "0") (fun g =>
       andWith (padStringBeggining (Number_toString (blue color) 16) 2 "0") (fun b =>
       Returned {| sampleA := times opacityValue (ofNat (alpha color));
                   sampleHex := r ++ g ++ b |})))
   | None => Returned {| sampleA := opacityValue; sampleHex := "ffffff" |}
   end, calls).

End Sampler.

(** Fixtures: opacities are whole numbers or not numbers; the document
    has one colour and one opacity for every variable. *)
Definition wholeFloats : Floats (option nat) := {|
  parseFloat := fun s =>
    if (0 <? String.length s)%nat && forallb (inClass digitClass) (list_ascii_of_string s)
    then Some (parseInt s) else None;
  isNaN := fun x => match x with Some _ => false | None => true end;
  ofNat := fun n => Some n;
  times := fun x y =>
    match x, y with
    | Some m, Some n => Some (m * n)
    | _, _ => None
    end
|}.

Definition plainDocument (color opacity : string) : Document unit := {|
  computedColor := fun _ _ => color;
  computedOpacity := fun _ _ => opacity
|}.

(** Every character of [s] is in the class; [s] does not go on with the
    class. *)
Fixpoint everyChar (member : ascii -> bool) (s : string) : bool :=
  match s with
  | EmptyString => true
  | String c rest => member c && everyChar member rest
  end.

Definition stopsRun (member : ascii -> bool) (s : string) : bool :=
  match s with
  | EmptyString => true
  | String c _ => negb (member c)
  end.

(* ================================================================== *)
(** * Part II. Properties *)
(* ================================================================== *)

(** ** Strings *)

Lemma length_append (s t : string) :
  String.length (s ++ t) = String.length s + String.length t.
Proof.
  induction s as [|c s IH]; simpl; [reflexivity | now rewrite IH].
Qed.

Lemma length_repeat_string (s : string) (n : nat) :
  String.length (repeat_string s n) = n * String.length s.
Proof.
  induction n as [|n IH]; simpl; [reflexivity|].
  rewrite length_append, IH. lia.
Qed.

Lemma substring_append_right (s t : string) :
  substring (String.length s) (String.length t) (s ++ t) = t.
Proof.
  induction s as [|c s IH]; simpl.
  - induction t as [|d t IHt]; simpl; [reflexivity|].
    destruct t; simpl in *; now rewrite ?IHt.
  - exact IH.
Qed.


Lemma substring_all (s : string) : substring 0 (String.length s) s = s.
Proof.
  induction s as [|c s IH]; simpl; [reflexivity | now rewrite IH].
Qed.

Lemma endsWith_append (p s : string) : endsWith (p ++ s) s = true.
Proof.
  unfold endsWith. rewrite length_append.
  replace (String.length p + String.length s - String.length s)
    with (String.length p) by lia.
  rewrite substring_append_right, String.eqb_refl.
  apply andb_true_intro; split; [apply Nat.leb_le; lia | reflexivity].
Qed.

Lemma trimStart_dot (rest : string) : trimStart (String "." rest) "." = rest.
Proof.
  unfold trimStart, startsWith, substring_from. simpl.
  destruct rest; simpl; [reflexivity|].
  now rewrite ?Nat.sub_0_r, substring_all.
Qed.

(** C10.  For a one-character pad [char] and a target [length] of at least
    the length of [str], [padStringBeggining str length char] returns (the
    negative-count error of [repeat] is not raised) a string of exactly
    [length] characters, made of [length - str.length] copies of [char]
    followed by [str], so that it ends with [str].  When [length] is less
    than the length of [str] the call throws. *)
Theorem padStringBeggining_pads (str char : string) (length : Z) :
  String.length char = 1 ->
  ((Z.of_nat (String.length str) <= length)%Z ->
   exists out,
     padStringBeggining str length char = Returned out /\
     Z.of_nat (String.length out) = length /\
     out = repeat_string char (Z.to_nat (length - Z.of_nat (String.length str))) ++ str /\
     endsWith out str = true) /\
  ((length < Z.of_nat (String.length str))%Z ->
   exists e, padStringBeggining str length char = Thrown e).
Proof.
  intros Hchar. unfold padStringBeggining, String_repeat. split; intros Hlen.
  - destruct (Z.ltb_spec (length - Z.of_nat (String.length str)) 0) as [Hneg|Hpos];
      [lia|].
    eexists. split; [reflexivity|]. split; [|split; [reflexivity|]].
    + rewrite length_append, length_repeat_string, Hchar. lia.
    + apply endsWith_append.
  - destruct (Z.ltb_spec (length - Z.of_nat (String.length str)) 0) as [Hneg|Hpos];
      [|lia].
    eexists. reflexivity.
Qed.

Lemma padStringBeggining_pads_witness :
  String.length "0" = 1 /\
  (Z.of_nat (String.length "f") <= 2)%Z /\
  exists out,
    padStringBeggining "f" 2 "0" = Returned out /\
    Z.of_nat (String.length out) = 2%Z /\
    out = repeat_string "0" (Z.to_nat (2 - Z.of_nat (String.length "f"))) ++ "f" /\
    endsWith out "f" = true.
Proof.
  split; [reflexivity|]. split; [simpl; lia|].
  apply (proj1 (padStringBeggining_pads "f" "0" 2 eq_refl)). simpl; lia.
Defined.

(** ** The default destination *)

(** C3 (as amended).  [idealDefaultPath] is a function of the stored
    export path (and of the path class, which holds the disk and the
    vault): it emits nothing and always returns.  When the last-used path
    has a non-empty string and exists, the result is its parent directory;
    otherwise it is the vault root; so the result is always one of the two.
    The vault root may itself be the parent directory of the last-used
    path; when the two are different paths, the result is the parent
    directory exactly when the last-used path is non-empty and exists. *)
Theorem idealDefaultPath_cases {Path : Type} {paths : PathClass Path}
    (exportPath : string) :
  let lastPath := newPath exportPath in
  let usable := asString lastPath <> "" /\ pathExists lastPath = true in
  (usable -> idealDefaultPath exportPath = directory lastPath) /\
  (~ usable -> idealDefaultPath exportPath = vaultPath) /\
  (idealDefaultPath exportPath = directory lastPath \/
   idealDefaultPath exportPath = vaultPath) /\
  (directory lastPath <> vaultPath ->
   (idealDefaultPath exportPath = directory lastPath <-> usable)).
Proof.
  intros lastPath usable. unfold idealDefaultPath. fold lastPath.
  destruct (String.eqb_spec (asString lastPath) "") as [Hempty|Hfull];
    destruct (pathExists lastPath) eqn:Hexists; simpl; subst usable;
    repeat split; intros; try tauto; try congruence;
    try (exfalso; intuition congruence); auto.
Qed.

Lemma idealDefaultPath_cases_witness :
  (asString (PathClass := vaultPaths) (newPath "/vault/export/index.html") <> "" /\
   pathExists (PathClass := vaultPaths) (newPath "/vault/export/index.html") = true) /\
  idealDefaultPath (paths := vaultPaths) "/vault/export/index.html" = "/vault/export".
Proof.
  assert (Husable :
            asString (PathClass := vaultPaths) (newPath "/vault/export/index.html") <> "" /\
            pathExists (PathClass := vaultPaths) (newPath "/vault/export/index.html") = true)
    by (split; [discriminate | reflexivity]).
  split; [exact Husable|].
  exact (proj1 (idealDefaultPath_cases (paths := vaultPaths) "/vault/export/index.html")
           Husable).
Defined.

(** The claim C3 as first stated fails: for a last-used path that lies in
    the vault root and does not exist any more, the result is the vault
    root, which is the parent directory of that path, although the path
    does not exist. *)
Lemma idealDefaultPath_parent_of_missing_path :
  pathExists (PathClass := vaultPaths) (newPath "/vault/missing.html") = false /\
  idealDefaultPath (paths := vaultPaths) "/vault/missing.html"
  = directory (newPath "/vault/missing.html") /\
  ~ (idealDefaultPath (paths := vaultPaths) "/vault/missing.html"
     = directory (newPath "/vault/missing.html") <->
     asString (PathClass := vaultPaths) (newPath "/vault/missing.html") <> "" /\
     pathExists (PathClass := vaultPaths) (newPath "/vault/missing.html") = true).
Proof.
  split; [reflexivity|]. split; [reflexivity|].
  intros [Honly _]. destruct (Honly eq_refl) as [_ Hexists]. discriminate.
Qed.

(** ** The destination pickers *)

Section Pickers.

Context {Path : Type} {paths : PathClass Path}.
Context {W E : Type} {host : Host W E}.

(** C4 (as amended).  Without a native dialog, each picker returns a path
    that depends on its arguments only, whatever the world, leaves the
    world as it is, and shows one notice and no dialog.  The folder and
    file pickers return the default path itself; the save picker returns
    the file name joined to the directory of the default path. *)
Theorem pickers_without_native_dialog (defaultPath : Path)
    (defaultFileName : string) (showAllFilesOption : bool) (w : W) :
  showSaveDialog false defaultPath defaultFileName showAllFilesOption w
  = (Some (joinString (directory defaultPath) defaultFileName), w,
     [ShowNotice ("Exporting to "
                  ++ asString (joinString (directory defaultPath) defaultFileName))]) /\
  showSelectFolderDialog false defaultPath w
  = (Some defaultPath, w,
     [ShowNotice ("Using default folder: " ++ asString defaultPath)]) /\
  showSelectFileDialog false defaultPath w
  = (Some defaultPath, w,
     [ShowNotice ("Using default file: " ++ asString defaultPath)]) /\
  (forall w' : W,
      result (showSaveDialog false defaultPath defaultFileName showAllFilesOption w')
      = result (showSaveDialog false defaultPath defaultFileName showAllFilesOption w) /\
      result (showSelectFolderDialog false defaultPath w')
      = result (showSelectFolderDialog false defaultPath w) /\
      result (showSelectFileDialog false defaultPath w')
      = result (showSelectFileDialog false defaultPath w)) /\
  existsb isDialog
    (trace (showSaveDialog false defaultPath defaultFileName showAllFilesOption w)
     ++ trace (showSelectFolderDialog false defaultPath w)
     ++ trace (showSelectFileDialog false defaultPath w))%list = false.
Proof.
  repeat split.
Qed.

(** C7.  The result of a picker is a path or nothing.  With the native
    dialog, when the reply says the user canceled, each of the three
    pickers returns nothing (and only the dialog was called). *)
Theorem pickers_cancel_is_absent (defaultPath : Path)
    (defaultFileName : string) (showAllFilesOption : bool) (w : W) :
  ((forall options, saveCanceled (fst (dialogShowSaveDialog options w)) = true) ->
   result (showSaveDialog true defaultPath defaultFileName showAllFilesOption w) = None) /\
  ((forall options, openCanceled (fst (dialogShowOpenDialog options w)) = true) ->
   result (showSelectFolderDialog true defaultPath w) = None /\
   result (showSelectFileDialog true defaultPath w) = None).
Proof.
  split; intros Hcancel.
  - unfold showSaveDialog, bind, call, ret, result.
    match goal with
    | |- context [dialogShowSaveDialog ?o w] =>
        specialize (Hcancel o); destruct (dialogShowSaveDialog o w) as [reply w1]
    end.
    simpl in *. rewrite Hcancel. reflexivity.
  - split.
    + unfold showSelectFolderDialog, bind, call, ret, result.
      match goal with
      | |- context [dialogShowOpenDialog ?o w] =>
          specialize (Hcancel o); destruct (dialogShowOpenDialog o w) as [reply w1]
      end.
      simpl in *. rewrite Hcancel. reflexivity.
    + unfold showSelectFileDialog, bind, call, ret, result.
      match goal with
      | |- context [dialogShowOpenDialog ?o w] =>
          specialize (Hcancel o); destruct (dialogShowOpenDialog o w) as [reply w1]
      end.
      simpl in *. rewrite Hcancel. reflexivity.
Qed.

(** C8.  With the native dialog, the save picker calls the file chooser
    once, with the target (the file name joined to the absolute directory
    of the default path) as default path and with this filter list: first
    the filter named by the target's extension without its leading dot,
    in upper case, followed by " Files", whose only extension is that
    dotless extension; then, exactly when the all-files option is on, the
    filter "All Files" with extension "*". *)
Theorem showSaveDialog_filters (defaultPath : Path)
    (defaultFileName : string) (showAllFilesOption : bool) (w : W) :
  let target := joinString (absolute (directory defaultPath)) defaultFileName in
  let dotless := trimStart (extension target) "." in
  let byExtension :=
    {| filterName := toUpperCase dotless ++ " Files";
       filterExtensions := [dotless] |} in
  let allFiles := {| filterName := "All Files"; filterExtensions := ["*"] |} in
  trace (showSaveDialog true defaultPath defaultFileName showAllFilesOption w)
  = [ShowSaveDialog
       {| saveDefaultPath := asString target;
          saveFilters := if showAllFilesOption
                         then [byExtension; allFiles]
                         else [byExtension] |}] /\
  (forall rest, extension target = String "." rest -> dotless = rest) /\
  (startsWith (extension target) "." = false -> dotless = extension target).
Proof.
  intros target dotless byExtension allFiles. split; [|split].
  - unfold showSaveDialog, bind, call, ret, trace.
    fold target. fold dotless. fold byExtension. fold allFiles.
    destruct showAllFilesOption; simpl;
      match goal with
      | |- context [dialogShowSaveDialog ?o w] =>
          destruct (dialogShowSaveDialog o w) as [reply w1]
      end;
      destruct (negb (saveCanceled reply) && truthy (filePath reply));
      reflexivity.
  - intros rest Hext. subst dotless. rewrite Hext. apply trimStart_dot.
  - intros Hdot. subst dotless. unfold trimStart. now rewrite Hdot.
Qed.

End Pickers.

Lemma pickers_cancel_is_absent_witness :
  (forall options,
      saveCanceled (fst (dialogShowSaveDialog (Host := cancelingHost) options [])) = true) /\
  (forall options,
      openCanceled (fst (dialogShowOpenDialog (Host := cancelingHost) options [])) = true) /\
  result (showSaveDialog (paths := vaultPaths) (host := cancelingHost)
            true "/vault/export/index.html" "site.html" true []) = None /\
  result (showSelectFolderDialog (paths := vaultPaths) (host := cancelingHost)
            true "/vault/export" []) = None /\
  result (showSelectFileDialog (paths := vaultPaths) (host := cancelingHost)
            true "/vault/export" []) = None.
Proof.
  assert (Hsave : forall options,
             saveCanceled (fst (dialogShowSaveDialog (Host := cancelingHost) options []))
             = true)
    by (intros; reflexivity).
  assert (Hopen : forall options,
             openCanceled (fst (dialogShowOpenDialog (Host := cancelingHost) options []))
             = true)
    by (intros; reflexivity).
  split; [exact Hsave|]. split; [exact Hopen|]. split.
  - exact (proj1 (pickers_cancel_is_absent (paths := vaultPaths) (host := cancelingHost)
                    "/vault/export/index.html" "site.html" true []) Hsave).
  - exact (proj2 (pickers_cancel_is_absent (paths := vaultPaths) (host := cancelingHost)
                    "/vault/export" "site.html" true []) Hopen).
Defined.

Lemma showSaveDialog_filters_witness :
  extension (PathClass := vaultPaths)
    (joinString (absolute (directory "/vault/export/index.html")) "site.html")
  = ".html" /\
  trimStart
    (extension (PathClass := vaultPaths)
       (joinString (absolute (directory "/vault/export/index.html")) "site.html"))
    "." = "html".
Proof.
  split; [reflexivity|].
  exact (proj1 (proj2 (showSaveDialog_filters (paths := vaultPaths) (host := cancelingHost)
                         "/vault/export/index.html" "site.html" true []))
           "html" eq_refl).
Defined.

(** The claim C4 as first stated fails for the save picker: it does not
    return the default path it was given, and its result changes with the
    file name while the default path stays the same. *)
Lemma showSaveDialog_not_the_default_path :
  result (showSaveDialog (paths := vaultPaths) (host := cancelingHost)
            false "/vault/export/index.html" "site.html" true [])
  = Some "/vault/export/site.html" /\
  result (showSaveDialog (paths := vaultPaths) (host := cancelingHost)
            false "/vault/export/index.html" "site.html" true [])
  <> Some "/vault/export/index.html" /\
  result (showSaveDialog (paths := vaultPaths) (host := cancelingHost)
            false "/vault/export/index.html" "site.html" true [])
  <> result (showSaveDialog (paths := vaultPaths) (host := cancelingHost)
               false "/vault/export/index.html" "notes.html" true []).
Proof.
  split; [reflexivity|]. split; discriminate.
Qed.

(** ** The polling waiter *)

Section WaitUntilProperties.

Context {Num : Type} {numbers : JSNumber Num}.

Variable condition : nat -> bool.
Variables timeout interval : Num.

Lemma runTicks_idle (ticks : nat) (s : Waiter Num) :
  intervalActive s = false -> runTicks condition timeout interval ticks s = s.
Proof.
  revert s. induction ticks as [|ticks IH]; intros s Hidle; simpl; [reflexivity|].
  unfold tick. rewrite Hidle. now apply IH.
Qed.

Lemma tick_pending (n : nat) :
  quietTick condition timeout interval (S n) ->
  tick condition timeout interval (pending interval n) = pending interval (S n).
Proof.
  intros [Hfalse Hearly]. unfold tick, intervalCallback, pending. simpl in *.
  now rewrite Hfalse, Hearly.
Qed.

Lemma runTicks_pending (k n : nat) :
  (forall m, n < m <= n + k -> quietTick condition timeout interval m) ->
  runTicks condition timeout interval k (pending interval n) = pending interval (n + k).
Proof.
  revert n. induction k as [|k IH]; intros n Hquiet; simpl.
  - now rewrite Nat.add_0_r.
  - rewrite tick_pending by (apply Hquiet; lia).
    rewrite IH; [f_equal; lia|].
    intros m Hm. apply Hquiet. lia.
Qed.

Lemma runTicks_split (a b : nat) (s : Waiter Num) :
  runTicks condition timeout interval (a + b) s
  = runTicks condition timeout interval b (runTicks condition timeout interval a s).
Proof.
  revert s. induction a as [|a IH]; intros s; simpl; [reflexivity | apply IH].
Qed.

Lemma runTicks_last (ticks : nat) (s : Waiter Num) :
  runTicks condition timeout interval (S ticks) s
  = tick condition timeout interval (runTicks condition timeout interval ticks s).
Proof.
  replace (S ticks) with (ticks + 1) by lia. now rewrite runTicks_split.
Qed.

Lemma tick_finds_true (n : nat) :
  condition (S n) = true ->
  tick condition timeout interval (pending interval n) = resolvedTrue interval (S n).
Proof.
  intros Htrue. unfold tick, intervalCallback, pending, resolvedTrue. simpl.
  rewrite Htrue, Nat.sub_0_r. reflexivity.
Qed.

Lemma tick_times_out (n : nat) :
  condition (S n) = false ->
  numberGeq (accumulated interval (S n)) timeout = true ->
  tick condition timeout interval (pending interval n) = resolvedFalse interval (S n).
Proof.
  intros Hfalse Hlate. unfold tick, intervalCallback, pending, resolvedFalse.
  simpl in *. now rewrite Hfalse, Hlate.
Qed.

Lemma run_from_pending (ticks : nat) :
  condition 0 = false ->
  waitUntil condition timeout interval ticks
  = runTicks condition timeout interval ticks (pending interval 0).
Proof.
  intros Hfalse. unfold waitUntil. now rewrite Hfalse.
Qed.

(** C6.  When the predicate holds at the call, [waitUntil] has called it
    once, has resolved to [true] and has set no timer, whatever the
    timeout, the interval and the number of ticks that follow. *)
Theorem waitUntil_immediate (ticks : nat) :
  condition 0 = true ->
  waitUntil condition timeout interval ticks
  = {| timer := numberZero; intervalActive := false; settled := Some true;
       samples := 1; timerLog := [Resolve true] |}.
Proof.
  intros Hnow. unfold waitUntil. now rewrite Hnow.
Qed.

(** C5.  The accumulated wait time is the variable [timer], to which the
    interval is added at every tick where the predicate is false, with the
    addition and the comparison of the numbers at hand (for doubles, with
    their rounding).  Let the predicate be false at the call and at the
    ticks before tick [n], none of which brings the accumulated time to the
    timeout.  If the predicate is true at tick [n], the promise resolves to
    [true] at that tick; if it is false there and the accumulated time is
    then at least the timeout, the promise resolves to [false] at that tick.
    In both cases the interval is cleared just before the resolution and
    stays cleared, and nothing is settled before tick [n]. *)
Theorem waitUntil_resolves (n : nat) :
  1 <= n ->
  (forall m, m < n -> condition m = false) ->
  (forall m, 1 <= m < n -> numberGeq (accumulated interval m) timeout = false) ->
  (forall ticks, ticks < n ->
      settled (waitUntil condition timeout interval ticks) = None /\
      intervalActive (waitUntil condition timeout interval ticks) = true) /\
  (condition n = true ->
   forall ticks, n <= ticks ->
      waitUntil condition timeout interval ticks
      = {| timer := accumulated interval (n - 1); intervalActive := false;
           settled := Some true; samples := S n;
           timerLog := [SetInterval interval; ClearInterval; Resolve true] |}) /\
  (condition n = false -> numberGeq (accumulated interval n) timeout = true ->
   forall ticks, n <= ticks ->
      waitUntil condition timeout interval ticks
      = {| timer := accumulated interval n; intervalActive := false;
           settled := Some false; samples := S n;
           timerLog := [SetInterval interval; ClearInterval; Resolve false] |}).
Proof.
  intros Hn Hfalse Hearly.
  assert (Hbefore : forall k, k < n ->
             runTicks condition timeout interval k (pending interval 0)
             = pending interval k).
  { intros k Hk. rewrite runTicks_pending; [reflexivity|].
    intros m Hm. split; [apply Hfalse | apply Hearly]; lia. }
  split; [|split].
  - intros ticks Hticks.
    rewrite run_from_pending, Hbefore by (try apply Hfalse; lia).
    split; reflexivity.
  - intros Htrue ticks Hticks.
    replace ticks with ((n - 1) + S (ticks - n)) by lia.
    rewrite run_from_pending, runTicks_split, Hbefore by (try apply Hfalse; lia).
    simpl runTicks. rewrite tick_finds_true by (now replace (S (n - 1)) with n by lia).
    replace (S (n - 1)) with n by lia. now apply runTicks_idle.
  - intros Hstill Hlate ticks Hticks.
    replace ticks with ((n - 1) + S (ticks - n)) by lia.
    rewrite run_from_pending, runTicks_split, Hbefore by (try apply Hfalse; lia).
    simpl runTicks.
    rewrite tick_times_out by (now replace (S (n - 1)) with n by lia).
    replace (S (n - 1)) with n by lia. now apply runTicks_idle.
Qed.

End WaitUntilProperties.

Lemma waitUntil_immediate_witness :
  (fun _ : nat => true) 0 = true /\
  waitUntil (fun _ => true) eightTenths oneTenth 5
  = {| timer := 0%float; intervalActive := false; settled := Some true;
       samples := 1; timerLog := [Resolve true] |}.
Proof.
  split; [reflexivity|].
  exact (waitUntil_immediate (fun _ => true) eightTenths oneTenth 5 eq_refl).
Defined.

(** With doubles, 0.1 added eight times stays below 0.8: the timeout of
    0.8 falls at the ninth tick.  With integers, 100 added twice is 200. *)
Lemma waitUntil_resolves_witness :
  (1 <= 9 /\
   (forall m, 1 <= m < 9 ->
              numberGeq (accumulated oneTenth m) eightTenths = false) /\
   numberGeq (accumulated oneTenth 9) eightTenths = true /\
   settled (waitUntil (fun _ => false) eightTenths oneTenth 8) = None /\
   settled (waitUntil (fun _ => false) eightTenths oneTenth 9) = Some false) /\
  (1 <= 3 /\
   (forall m, m < 3 -> Nat.eqb m 3 = false) /\
   (forall m, 1 <= m < 3 -> numberGeq (accumulated 100%Z m) 1000%Z = false) /\
   Nat.eqb 3 3 = true /\
   waitUntil (fun n => Nat.eqb n 3) 1000%Z 100%Z 3
   = {| timer := 200%Z; intervalActive := false; settled := Some true; samples := 4;
        timerLog := [SetInterval 100%Z; ClearInterval; Resolve true] |}).
Proof.
  assert (Hearly9 : forall m, 1 <= m < 9 ->
                      numberGeq (accumulated oneTenth m) eightTenths = false).
  { intros m Hm. do 9 (destruct m as [|m]; [try lia; vm_compute; reflexivity|]). lia. }
  assert (Hlate9 : numberGeq (accumulated oneTenth 9) eightTenths = true)
    by (vm_compute; reflexivity).
  assert (Hfalse3 : forall m, m < 3 -> Nat.eqb m 3 = false)
    by (intros [|[|[|m]]] Hm; [reflexivity.. | lia]).
  assert (Hearly3 : forall m, 1 <= m < 3 ->
                      numberGeq (accumulated 100%Z m) 1000%Z = false).
  { intros m Hm. do 3 (destruct m as [|m]; [try lia; reflexivity|]). lia. }
  split.
  - split; [lia|]. split; [exact Hearly9|]. split; [exact Hlate9|]. split.
    + exact (proj1 (proj1 (waitUntil_resolves (fun _ => false) eightTenths oneTenth 9
                             ltac:(lia) (fun _ _ => eq_refl) Hearly9)
                      8 ltac:(lia))).
    + rewrite (proj2 (proj2 (waitUntil_resolves (fun _ => false) eightTenths oneTenth 9
                               ltac:(lia) (fun _ _ => eq_refl) Hearly9))
                 eq_refl Hlate9 9 (le_n 9)).
      reflexivity.
  - split; [lia|]. split; [exact Hfalse3|]. split; [exact Hearly3|].
    split; [reflexivity|].
    exact (proj1 (proj2 (waitUntil_resolves (fun n => Nat.eqb n 3) 1000%Z 100%Z 3
                           ltac:(lia) Hfalse3 Hearly3))
             eq_refl 3 (le_n 3)).
Defined.

(** ** Batch delivery *)

Section Delivery.

Context {Path : Type} {paths : PathClass Path}.
Context {W E : Type} {host : Host W E}.

Lemma downloadFile_run (i total : nat) (file : Downloadable Path)
    (rootPath : Path) (w : W) :
  downloadFile i total file rootPath w
  = (tt, snd (turnOutcome rootPath file w),
     turnTrace i total file rootPath (fst (turnOutcome rootPath file w))).
Proof.
  unfold downloadFile, tryWrite, andThen, catchWrite, turnOutcome, turnTrace,
    bind, call, emit, ret, progressOf, writeOf, failureLog, failureNotice.
  destruct (adapterMkdir (dirPathOf rootPath file) w) as [[error|] w1]; simpl.
  - reflexivity.
  - destruct (adapterWrite (filePathOf rootPath file) (contentString file) w1)
      as [[error|] w2]; reflexivity.
Qed.

Lemma downloadFilesFrom_run (rest : list (Downloadable Path)) (rootPath : Path) :
  forall (i total : nat) (w : W),
    trace (downloadFilesFrom i total rest rootPath w)
    = turnsTrace i total rest rootPath (runOutcomes rest rootPath w)
    /\ result (downloadFilesFrom i total rest rootPath w) = tt.
Proof.
  induction rest as [|file rest IH]; intros i total w; simpl.
  - split; reflexivity.
  - unfold bind. rewrite downloadFile_run.
    destruct (turnOutcome rootPath file w) as [outcome w1]. simpl.
    specialize (IH (S i) total w1).
    destruct (downloadFilesFrom (S i) total rest rootPath w1) as [[u w2] t].
    unfold trace, result in *. simpl in *. destruct IH as [IHt IHr].
    split; [now rewrite IHt | destruct u; reflexivity].
Qed.

Lemma length_runOutcomes (rest : list (Downloadable Path)) (rootPath : Path) :
  forall w : W, List.length (runOutcomes rest rootPath w) = List.length rest.
Proof.
  induction rest as [|file rest IH]; intros w; simpl; [reflexivity|].
  destruct (turnOutcome rootPath file w) as [outcome w1]. simpl. now rewrite IH.
Qed.

Lemma progress_of_turns (rest : list (Downloadable Path)) (rootPath : Path) :
  forall (i total : nat) (outcomes : list (Outcome E)),
    List.length outcomes = List.length rest ->
    filter isProgress (turnsTrace i total rest rootPath outcomes)
    = progressReports i total rest.
Proof.
  induction rest as [|file rest IH]; intros i total outcomes Hlen.
  - destruct outcomes; reflexivity.
  - destruct outcomes as [|outcome outcomes]; [discriminate|].
    simpl. rewrite filter_app, IH by (simpl in Hlen; lia).
    destruct outcome; reflexivity.
Qed.

Lemma nth_progressReports (rest : list (Downloadable Path)) :
  forall (i total n : nat) (file : Downloadable Path),
    nth_error rest n = Some file ->
    nth_error (progressReports i total rest) n = Some (progressOf (i + n) total file).
Proof.
  induction rest as [|first rest IH]; intros i total n file Hn.
  - destruct n; discriminate.
  - destruct n as [|n]; simpl in *.
    + injection Hn as ->. now rewrite Nat.add_0_r.
    + rewrite (IH (S i) total n file Hn). f_equal. f_equal. lia.
Qed.

Lemma length_progressReports (rest : list (Downloadable Path)) :
  forall i total : nat, List.length (progressReports i total rest) = List.length rest.
Proof.
  induction rest as [|first rest IH]; intros i total; simpl; [reflexivity|].
  now rewrite IH.
Qed.

(** C2.  Whatever the adapter replies, the run of [downloadFiles] on [N]
    files is made of [N] turns in list order, the turn of [files[i]]
    opening with its progress report, before the directory and the file
    are attempted; so the progress sink receives exactly [N] reports, the
    [i]-th of which has index [i], total [N] and names [files[i]]. *)
Theorem downloadFiles_progress_in_order (files : list (Downloadable Path))
    (rootPath : Path) (w : W) :
  let run := trace (downloadFiles files rootPath w) in
  let N := List.length files in
  (exists outcomes : list (Outcome E),
      List.length outcomes = N /\
      run = turnsTrace 0 N files rootPath outcomes) /\
  List.length (filter isProgress run) = N /\
  (forall (i : nat) (file : Downloadable Path),
      nth_error files i = Some file ->
      nth_error (filter isProgress run) i
      = Some (Progress i N "Downloading Files"
                ("Downloading: " ++ asString (relativePath file)))).
Proof.
  intros run N. subst run. unfold downloadFiles. fold N.
  destruct (downloadFilesFrom_run files rootPath 0 N w) as [Hrun _].
  rewrite Hrun.
  rewrite progress_of_turns by apply length_runOutcomes.
  split; [|split].
  - exists (runOutcomes files rootPath w). split; [apply length_runOutcomes | reflexivity].
  - apply length_progressReports.
  - intros i file Hfile. now rewrite (nth_progressReports files 0 N i file Hfile).
Qed.

(** *** One failing write *)

Lemma turnOutcome_written (rootPath : Path) (file : Downloadable Path) (w : W) :
  mkdirSucceeds rootPath file -> writeSucceeds rootPath file ->
  fst (turnOutcome rootPath file w) = Written.
Proof.
  intros Hmkdir Hwrite. unfold turnOutcome.
  specialize (Hmkdir w).
  destruct (adapterMkdir (dirPathOf rootPath file) w) as [[error|] w1];
    [discriminate|].
  specialize (Hwrite w1).
  destruct (adapterWrite (filePathOf rootPath file) (contentString file) w1)
    as [[error|] w2]; [discriminate | reflexivity].
Qed.

Lemma turnOutcome_write_failed (rootPath : Path) (file : Downloadable Path) (w : W) :
  mkdirSucceeds rootPath file -> writeFails rootPath file ->
  exists error, fst (turnOutcome rootPath file w) = WriteFailed error.
Proof.
  intros Hmkdir Hwrite. unfold turnOutcome.
  specialize (Hmkdir w).
  destruct (adapterMkdir (dirPathOf rootPath file) w) as [[error|] w1];
    [discriminate|].
  specialize (Hwrite w1).
  destruct (adapterWrite (filePathOf rootPath file) (contentString file) w1)
    as [[error|] w2]; [now exists error | now contradiction Hwrite].
Qed.

Lemma runOutcomes_all_written (rest : list (Downloadable Path)) (rootPath : Path) :
  (forall file, In file rest ->
                mkdirSucceeds rootPath file /\ writeSucceeds rootPath file) ->
  forall w : W, runOutcomes rest rootPath w = repeat Written (List.length rest).
Proof.
  induction rest as [|file rest IH]; intros Hall w; simpl; [reflexivity|].
  pose proof (turnOutcome_written rootPath file w
                (proj1 (Hall file (or_introl eq_refl)))
                (proj2 (Hall file (or_introl eq_refl)))) as Hfirst.
  destruct (turnOutcome rootPath file w) as [outcome w1]. simpl in Hfirst.
  subst outcome. f_equal. apply IH. intros other Hother. apply Hall. now right.
Qed.

Lemma runOutcomes_one_failure (rootPath : Path) (failing : Downloadable Path) :
  forall (rest : list (Downloadable Path)) (k : nat),
    nth_error rest k = Some failing ->
    (forall file, In file rest -> mkdirSucceeds rootPath file) ->
    writeFails rootPath failing ->
    (forall j file, nth_error rest j = Some file -> j <> k ->
                    writeSucceeds rootPath file) ->
    forall w : W,
    exists error,
      runOutcomes rest rootPath w
      = (repeat Written k
         ++ WriteFailed error :: repeat Written (List.length rest - k - 1))%list.
Proof.
  induction rest as [|file rest IH]; intros k Hk Hmkdir Hfail Hothers w.
  - destruct k; discriminate.
  - destruct k as [|k]; simpl in Hk |- *.
    + injection Hk as ->.
      destruct (turnOutcome_write_failed rootPath failing w
                  (Hmkdir failing (or_introl eq_refl)) Hfail) as [error Hfirst].
      destruct (turnOutcome rootPath failing w) as [outcome w1]. simpl in Hfirst.
      subst outcome. exists error. f_equal. rewrite Nat.sub_0_r.
      apply runOutcomes_all_written. intros other Hother. split.
      * apply Hmkdir. now right.
      * destruct (In_nth_error _ _ Hother) as [j Hj].
        apply (Hothers (S j) other Hj). discriminate.
    + pose proof (turnOutcome_written rootPath file w
                    (Hmkdir file (or_introl eq_refl))
                    (Hothers 0 file eq_refl ltac:(discriminate))) as Hfirst.
      destruct (turnOutcome rootPath file w) as [outcome w1]. simpl in Hfirst.
      subst outcome.
      destruct (IH k Hk (fun other Hother => Hmkdir other (or_intror Hother)) Hfail
                  (fun j other Hj Hneq =>
                     Hothers (S j) other Hj (fun Heq => Hneq (eq_add_S _ _ Heq)))
                  w1) as [error Hrest].
      exists error. now rewrite Hrest.
Qed.

Lemma turns_all_written (rest : list (Downloadable Path)) (rootPath : Path) :
  forall i total : nat,
    let run := turnsTrace i total rest rootPath (repeat Written (List.length rest)) in
    filter isWriteFile run = map (writeOf rootPath) rest /\
    filter isLogError run = [] /\
    filter isShowNotice run = [].
Proof.
  induction rest as [|file rest IH]; intros i total; simpl.
  - repeat split.
  - destruct (IH (S i) total) as [Hwrites [Hlogs Hnotices]].
    unfold writeOf in *. simpl. rewrite Hwrites, Hlogs, Hnotices. repeat split.
Qed.

Lemma turns_one_failure (rootPath : Path) (failing : Downloadable Path) (error : E) :
  forall (rest : list (Downloadable Path)) (k i total : nat),
    nth_error rest k = Some failing ->
    let run := turnsTrace i total rest rootPath
                 (repeat Written k
                  ++ WriteFailed error :: repeat Written (List.length rest - k - 1)) in
    filter isWriteFile run = map (writeOf rootPath) rest /\
    filter isLogError run = [failureLog failing error] /\
    filter isShowNotice run = [failureNotice failing].
Proof.
  induction rest as [|file rest IH]; intros k i total Hk.
  - destruct k; discriminate.
  - destruct k as [|k]; simpl in Hk.
    + injection Hk as ->. simpl. rewrite Nat.sub_0_r.
      destruct (turns_all_written rest rootPath (S i) total)
        as [Hwrites [Hlogs Hnotices]].
      unfold writeOf, failureLog, failureNotice in *. simpl.
      rewrite Hwrites, Hlogs, Hnotices. repeat split.
    + destruct (IH k (S i) total Hk) as [Hwrites [Hlogs Hnotices]].
      unfold writeOf, failureLog, failureNotice in *. simpl.
      rewrite Hwrites, Hlogs, Hnotices. repeat split.
Qed.

(** C1.  [runOutcomes files rootPath w] lists what the adapter replies in
    the run that starts in world [w], one outcome for each file.  Let these
    be: the write of [files[k]] rejected with [error], every other file
    written, every directory created.  Then the run of [downloadFiles] is
    the [N] turns in list order, all written but the [k]-th, whose write
    fails: the writes attempted are those of the [N] files, one each, in
    order (the failed one is not tried again), and there is exactly one
    entry in the error log and exactly one failure notice, both naming the
    relative path of [files[k]]. *)
Theorem downloadFiles_one_failure (files : list (Downloadable Path))
    (rootPath : Path) (k : nat) (failing : Downloadable Path) (error : E) (w : W) :
  nth_error files k = Some failing ->
  runOutcomes files rootPath w
  = (repeat Written k
     ++ WriteFailed error :: repeat Written (List.length files - k - 1))%list ->
  let run := trace (downloadFiles files rootPath w) in
  let N := List.length files in
  run = turnsTrace 0 N files rootPath
          (repeat Written k ++ WriteFailed error :: repeat Written (N - k - 1)) /\
  filter isWriteFile run
  = map (fun file => WriteFile (filePathOf rootPath file) (contentString file)) files /\
  filter isLogError run
  = [LogError ("Failed to write file " ++ asString (relativePath failing)
                 ++ ": " ++ errorToString error)] /\
  filter isShowNotice run
  = [ShowNotice ("Failed to write file " ++ asString (relativePath failing))].
Proof.
  intros Hk Houtcomes run N. subst run. unfold downloadFiles. fold N.
  destruct (downloadFilesFrom_run files rootPath 0 N w) as [Hrun _].
  rewrite Hrun, Houtcomes. fold N. split; [reflexivity|].
  exact (turns_one_failure rootPath failing error files k 0 N Hk).
Qed.

End Delivery.

Lemma downloadFiles_progress_in_order_witness :
  nth_error siteFiles 1
  = Some {| relativePath := "css/site.css"; relativeDirectory := "css";
            content := TextContent "body {}"; encoding := Some utf8 |} /\
  nth_error (filter isProgress (trace (downloadFiles siteFiles "/out" []))) 1
  = Some (Progress 1 3 "Downloading Files" "Downloading: css/site.css").
Proof.
  split; [reflexivity|].
  exact (proj2 (proj2 (downloadFiles_progress_in_order siteFiles "/out" []))
           1 _ eq_refl).
Defined.

(** The second write of the run is rejected, for a file that is listed
    twice: the first copy is written, the second is not. *)
Lemma downloadFiles_one_failure_witness :
  nth_error repeatedFiles 1
  = Some {| relativePath := "css/a.css"; relativeDirectory := "css";
            content := TextContent "a {}"; encoding := Some utf8 |} /\
  runOutcomes (host := countingHost None (Some 1)) repeatedFiles "/out" (0, 0)
  = [Written; WriteFailed "ENOSPC: no space left on device"; Written] /\
  filter isWriteFile
    (trace (downloadFiles (host := countingHost None (Some 1)) repeatedFiles "/out" (0, 0)))
  = [WriteFile "/out/css/a.css" "a {}"; WriteFile "/out/css/a.css" "a {}";
     WriteFile "/out/css/b.css" "b {}"] /\
  filter isLogError
    (trace (downloadFiles (host := countingHost None (Some 1)) repeatedFiles "/out" (0, 0)))
  = [LogError "Failed to write file css/a.css: Error: ENOSPC: no space left on device"] /\
  filter isShowNotice
    (trace (downloadFiles (host := countingHost None (Some 1)) repeatedFiles "/out" (0, 0)))
  = [ShowNotice "Failed to write file css/a.css"].
Proof.
  split; [reflexivity|]. split; [reflexivity|].
  exact (proj2 (downloadFiles_one_failure (host := countingHost None (Some 1))
                  repeatedFiles "/out" 1 _ "ENOSPC: no space left on device" (0, 0)
                  eq_refl eq_refl)).
Defined.

(** ** The edit distance *)

(** *** The recurrence *)

Lemma lev_nil_r (a : list ascii) : lev a [] = List.length a.
Proof. destruct a; reflexivity. Qed.

Lemma lev_cons (x y : ascii) (a b : list ascii) :
  lev (x :: a) (y :: b)
  = min3 (lev a (y :: b) + 1) (lev (x :: a) b + 1) (lev a b + substitutionCost x y).
Proof. reflexivity. Qed.

Lemma substitutionCost_le (x y : ascii) : substitutionCost x y <= 1.
Proof. unfold substitutionCost. destruct (Ascii.eqb x y); lia. Qed.

Lemma substitutionCost_same (x : ascii) : substitutionCost x x = 0.
Proof. unfold substitutionCost. now rewrite Ascii.eqb_refl. Qed.

Lemma substitutionCost_sym (x y : ascii) : substitutionCost x y = substitutionCost y x.
Proof. unfold substitutionCost. now rewrite Ascii.eqb_sym. Qed.

Lemma substitutionCost_zero (x y : ascii) : substitutionCost x y = 0 -> x = y.
Proof.
  unfold substitutionCost. destruct (Ascii.eqb_spec x y); [trivial | discriminate].
Qed.

Ltac lev_arith := unfold min3 in *; lia.

Lemma lev_same (a : list ascii) : lev a a = 0.
Proof.
  induction a as [|x a IH]; [reflexivity|].
  rewrite lev_cons, IH, substitutionCost_same. lev_arith.
Qed.

Lemma lev_zero (a : list ascii) : forall b, lev a b = 0 -> a = b.
Proof.
  induction a as [|x a IH]; intros [|y b] Hzero; try discriminate; [reflexivity|].
  rewrite lev_cons in Hzero.
  assert (Hdiag : lev a b + substitutionCost x y = 0) by lev_arith.
  rewrite (substitutionCost_zero x y) by lia.
  f_equal. apply IH. lia.
Qed.

Lemma lev_sym (a : list ascii) : forall b, lev a b = lev b a.
Proof.
  induction a as [|x a IHa]; intros b.
  - now rewrite lev_nil_r.
  - induction b as [|y b IHb]; [reflexivity|].
    rewrite !lev_cons, IHb, (IHa (y :: b)), (IHa b), (substitutionCost_sym x y).
    lev_arith.
Qed.

(** Dropping or adding a first character moves the value by at most one. *)
Lemma lev_drop_left (x : ascii) (a b : list ascii) : lev (x :: a) b <= lev a b + 1.
Proof.
  destruct b as [|y b]; [rewrite !lev_nil_r; simpl; lia|].
  rewrite lev_cons. lev_arith.
Qed.

Lemma lev_drop_right (y : ascii) (a b : list ascii) : lev a (y :: b) <= lev a b + 1.
Proof.
  rewrite (lev_sym a (y :: b)), (lev_sym a b). apply lev_drop_left.
Qed.

Lemma lev_add_left (x : ascii) (a : list ascii) :
  forall b, lev a b <= lev (x :: a) b + 1.
Proof.
  induction b as [|y b IH]; [rewrite !lev_nil_r; simpl; lia|].
  rewrite lev_cons.
  pose proof (lev_drop_right y a b). lev_arith.
Qed.

Lemma lev_replace_left (x y : ascii) (a : list ascii) :
  forall b, lev (x :: a) b <= lev (y :: a) b + 1.
Proof.
  induction b as [|z b IH]; [simpl; lia|].
  rewrite !lev_cons.
  pose proof (substitutionCost_le x z). lev_arith.
Qed.

(** *** Edit scripts *)

Lemma lev_edit (a a' : list ascii) :
  edit a a' -> forall b, lev a b <= lev a' b + 1.
Proof.
  induction 1 as [x l | x l | x y l Hxy | x l l' Hedit IH]; intros b.
  - apply lev_add_left.
  - apply lev_drop_left.
  - apply lev_replace_left.
  - induction b as [|z b IHb].
    + specialize (IH []). rewrite !lev_nil_r in *. simpl. lia.
    + rewrite !lev_cons.
      pose proof (IH (z :: b)). pose proof (IH b). lev_arith.
Qed.

Lemma lev_lower_bound (n : nat) (a b : list ascii) : edits n a b -> lev a b <= n.
Proof.
  induction 1 as [l | n a b c Hedit Hrest IH].
  - now rewrite lev_same.
  - pose proof (lev_edit a b Hedit c). lia.
Qed.

Lemma edits_later (x : ascii) (n : nat) (a b : list ascii) :
  edits n a b -> edits n (x :: a) (x :: b).
Proof.
  induction 1 as [l | n a b c Hedit Hrest IH].
  - apply edits_none.
  - apply edits_more with (b := x :: b); [now apply edit_later | exact IH].
Qed.

Lemma edits_length (b : list ascii) : edits (List.length b) [] b.
Proof.
  induction b as [|y b IH]; simpl.
  - apply edits_none.
  - apply edits_more with (b := [y]); [apply edit_insert | now apply edits_later].
Qed.

Lemma edits_erase (a : list ascii) : edits (List.length a) a [].
Proof.
  induction a as [|x a IH]; simpl.
  - apply edits_none.
  - apply edits_more with (b := a); [apply edit_delete | exact IH].
Qed.

Lemma lev_reached (a : list ascii) : forall b, edits (lev a b) a b.
Proof.
  induction a as [|x a IHa]; intros b.
  - apply edits_length.
  - induction b as [|y b IHb].
    + rewrite lev_nil_r. apply edits_erase.
    + rewrite lev_cons.
      assert (Hcases :
                min3 (lev a (y :: b) + 1) (lev (x :: a) b + 1)
                     (lev a b + substitutionCost x y) = S (lev a (y :: b)) \/
                min3 (lev a (y :: b) + 1) (lev (x :: a) b + 1)
                     (lev a b + substitutionCost x y) = S (lev (x :: a) b) \/
                min3 (lev a (y :: b) + 1) (lev (x :: a) b + 1)
                     (lev a b + substitutionCost x y) = lev a b + substitutionCost x y)
        by lev_arith.
      destruct Hcases as [-> | [-> | ->]].
      * apply edits_more with (b := a); [apply edit_delete | apply IHa].
      * apply edits_more with (b := y :: x :: a);
          [apply edit_insert | now apply edits_later].
      * unfold substitutionCost. destruct (Ascii.eqb_spec x y) as [-> | Hxy].
        -- rewrite Nat.add_0_r. apply edits_later, IHa.
        -- rewrite Nat.add_1_r.
           apply edits_more with (b := y :: a);
             [now apply edit_replace | apply edits_later, IHa].
Qed.

(** [lev] is the least number of edits. *)
Lemma lev_least (a b : list ascii) :
  edits (lev a b) a b /\ forall n, edits n a b -> lev a b <= n.
Proof.
  split; [apply lev_reached | intros n; apply lev_lower_bound].
Qed.

(** *** Reversal: the recurrence from the back *)

Lemma edit_app_r (s l l' : list ascii) : edit l l' -> edit (l ++ s)%list (l' ++ s)%list.
Proof.
  induction 1 as [x l | x l | x y l Hxy | x l l' Hedit IH]; simpl.
  - apply edit_insert.
  - apply edit_delete.
  - now apply edit_replace.
  - now apply edit_later.
Qed.

Lemma edit_app_l (p l l' : list ascii) : edit l l' -> edit (p ++ l)%list (p ++ l')%list.
Proof.
  intros Hedit. induction p as [|x p IH]; simpl; [exact Hedit | now apply edit_later].
Qed.

Lemma edit_rev (l l' : list ascii) : edit l l' -> edit (rev l) (rev l').
Proof.
  induction 1 as [x l | x l | x y l Hxy | x l l' Hedit IH]; simpl.
  - rewrite <- (app_nil_r (rev l)) at 1. apply edit_app_l, edit_insert.
  - rewrite <- (app_nil_r (rev l)) at 2. apply edit_app_l, edit_delete.
  - now apply edit_app_l, edit_replace.
  - now apply edit_app_r.
Qed.

Lemma edits_rev (n : nat) (a b : list ascii) : edits n a b -> edits n (rev a) (rev b).
Proof.
  induction 1 as [l | n a b c Hedit Hrest IH].
  - apply edits_none.
  - apply edits_more with (b := rev b); [now apply edit_rev | exact IH].
Qed.

Lemma lev_rev_le (a b : list ascii) : lev (rev a) (rev b) <= lev a b.
Proof.
  apply lev_lower_bound, edits_rev, lev_reached.
Qed.

Lemma lev_rev (a b : list ascii) : lev (rev a) (rev b) = lev a b.
Proof.
  apply Nat.le_antisymm; [apply lev_rev_le|].
  rewrite <- (rev_involutive a), <- (rev_involutive b) at 1. apply lev_rev_le.
Qed.

Lemma lev_snoc (x y : ascii) (a b : list ascii) :
  lev (a ++ [x]) (b ++ [y])
  = min3 (lev a (b ++ [y]) + 1) (lev (a ++ [x]) b + 1) (lev a b + substitutionCost x y).
Proof.
  rewrite <- (lev_rev (a ++ [x]) (b ++ [y])), !rev_unit, lev_cons.
  rewrite <- (rev_unit b y), <- (rev_unit a x), !lev_rev. reflexivity.
Qed.

(** *** Strings as lists of characters *)

Lemma length_list_ascii (s : string) :
  List.length (list_ascii_of_string s) = String.length s.
Proof.
  induction s as [|c s IH]; simpl; [reflexivity | now rewrite IH].
Qed.

Lemma get_list_ascii (s : string) :
  forall n, String.get n s = nth_error (list_ascii_of_string s) n.
Proof.
  induction s as [|c s IH]; intros [|n]; simpl; auto.
Qed.

Lemma firstn_snoc (l : list ascii) :
  forall (m : nat) (x : ascii),
    nth_error l m = Some x -> firstn (S m) l = (firstn m l ++ [x])%list.
Proof.
  induction l as [|c l IH]; intros [|m] x Hx; try discriminate; simpl in *.
  - now injection Hx as ->.
  - now rewrite <- (IH m x Hx).
Qed.

Lemma nth_map_seq {X : Type} (f : nat -> X) (d : X) :
  forall len start i, i < len -> nth i (map f (seq start len)) d = f (start + i).
Proof.
  induction len as [|len IH]; intros start i Hi; [lia|].
  destruct i as [|i]; simpl.
  - now rewrite Nat.add_0_r.
  - rewrite IH by lia. f_equal. lia.
Qed.

Lemma arraySet_at_length {X : Type} (a : list X) (x : X) :
  arraySet a (List.length a) x = (a ++ [x])%list.
Proof.
  induction a as [|y a IH]; simpl; [reflexivity | now rewrite IH].
Qed.

Lemma arraySet_last {X : Type} (a : list X) (y x : X) :
  arraySet (a ++ [y]) (List.length a) x = (a ++ [x])%list.
Proof.
  induction a as [|z a IH]; simpl; [reflexivity | now rewrite IH].
Qed.

(** *** The table of [levenshteinDistance] *)

Section LevenshteinTable.

Variables string1 string2 : string.

Local Abbreviation n1 := (String.length string1).
Local Abbreviation n2 := (String.length string2).

Lemma length_filledRow (i cells : nat) :
  List.length (filledRow string1 string2 i cells) = cells.
Proof. unfold filledRow. now rewrite length_map, length_seq. Qed.

Lemma length_filledRows (rows : nat) :
  List.length (filledRows string1 string2 rows) = rows.
Proof. unfold filledRows. now rewrite length_map, length_seq. Qed.

Lemma filledRow_S (i cells : nat) :
  filledRow string1 string2 i (S cells)
  = (filledRow string1 string2 i cells ++ [prefixDistance string1 string2 i cells])%list.
Proof. unfold filledRow. now rewrite seq_S, map_app. Qed.

Lemma filledRows_S (rows : nat) :
  filledRows string1 string2 (S rows)
  = (filledRows string1 string2 rows ++ [filledRow string1 string2 rows (S n1)])%list.
Proof. unfold filledRows. now rewrite seq_S, map_app. Qed.

Lemma prefixDistance_row_0 (j : nat) :
  j <= n1 -> prefixDistance string1 string2 0 j = j.
Proof.
  intros Hj. unfold prefixDistance. simpl firstn. rewrite lev_nil_r, length_firstn.
  rewrite length_list_ascii. lia.
Qed.

Lemma prefixDistance_column_0 (i : nat) :
  i <= n2 -> prefixDistance string1 string2 i 0 = i.
Proof.
  intros Hi. unfold prefixDistance. simpl. rewrite length_firstn.
  rewrite length_list_ascii. lia.
Qed.

Lemma prefixDistance_step (i j : nat) :
  i < n2 -> j < n1 ->
  prefixDistance string1 string2 (S i) (S j)
  = min3 (prefixDistance string1 string2 i (S j) + 1)
         (prefixDistance string1 string2 (S i) j + 1)
         (prefixDistance string1 string2 i j
          + (if strictEq (String.get j string1) (String.get i string2) then 0 else 1)).
Proof.
  intros Hi Hj. unfold prefixDistance. rewrite !get_list_ascii.
  destruct (nth_error (list_ascii_of_string string1) j) as [x|] eqn:Hx.
  2: { apply nth_error_None in Hx. rewrite length_list_ascii in Hx. lia. }
  destruct (nth_error (list_ascii_of_string string2) i) as [y|] eqn:Hy.
  2: { apply nth_error_None in Hy. rewrite length_list_ascii in Hy. lia. }
  rewrite (firstn_snoc _ j x Hx), (firstn_snoc _ i y Hy), lev_snoc.
  rewrite <- (firstn_snoc _ j x Hx), <- (firstn_snoc _ i y Hy).
  unfold strictEq, substitutionCost. lev_arith.
Qed.

Lemma cellAt_full_row (i m r j : nat) :
  r < i -> j <= n1 ->
  cellAt (filling string1 string2 i m) r j = prefixDistance string1 string2 r j.
Proof.
  intros Hr Hj. unfold cellAt, filling.
  rewrite app_nth1 by (rewrite length_filledRows; lia).
  unfold filledRows. rewrite nth_map_seq by lia.
  unfold filledRow. rewrite nth_map_seq by lia. reflexivity.
Qed.

Lemma cellAt_current_row (i m j : nat) :
  j <= m -> cellAt (filling string1 string2 i m) i j = prefixDistance string1 string2 i j.
Proof.
  intros Hj. unfold cellAt, filling.
  rewrite app_nth2 by (rewrite length_filledRows; lia).
  rewrite length_filledRows, Nat.sub_diag.
  change (nth 0 [filledRow string1 string2 i (S m)] [])
    with (filledRow string1 string2 i (S m)).
  unfold filledRow. rewrite nth_map_seq by lia. reflexivity.
Qed.

Lemma levenshteinCell_filling (i m : nat) :
  i <= n2 -> m < n1 ->
  levenshteinCell string1 string2 (filling string1 string2 i m) i (S m)
  = prefixDistance string1 string2 i (S m).
Proof.
  intros Hi Hm. unfold levenshteinCell.
  destruct i as [|i]; simpl Nat.eqb; cbv iota.
  - now rewrite prefixDistance_row_0 by lia.
  - replace (S i - 1) with i by lia. replace (S m - 1) with m by lia.
    rewrite (cellAt_full_row (S i) m i (S m)), (cellAt_full_row (S i) m i m),
      (cellAt_current_row (S i) m m) by lia.
    now rewrite prefixDistance_step by lia.
Qed.

Lemma levenshteinAssign_filling (i m : nat) :
  i <= n2 -> m < n1 ->
  levenshteinAssign string1 string2 i (filling string1 string2 i m) (S m) = filling string1 string2 i (S m).
Proof.
  intros Hi Hm. unfold levenshteinAssign.
  rewrite levenshteinCell_filling by assumption.
  unfold filling at 2.
  rewrite app_nth2 by (rewrite length_filledRows; lia).
  rewrite length_filledRows, Nat.sub_diag.
  change (nth 0 [filledRow string1 string2 i (S m)] [])
    with (filledRow string1 string2 i (S m)).
  pose proof (arraySet_at_length (filledRow string1 string2 i (S m))
                (prefixDistance string1 string2 i (S m))) as Hcell.
  rewrite length_filledRow, <- filledRow_S in Hcell. rewrite Hcell.
  pose proof (arraySet_last (filledRows string1 string2 i)
                (filledRow string1 string2 i (S m))
                (filledRow string1 string2 i (S (S m)))) as Hrow.
  rewrite length_filledRows in Hrow. exact Hrow.
Qed.

Lemma inner_loop_filling (i : nat) :
  i <= n2 ->
  forall count m, m + count = n1 ->
    fold_left (levenshteinAssign string1 string2 i) (seq (S m) count) (filling string1 string2 i m)
    = filling string1 string2 i n1.
Proof.
  intros Hi. induction count as [|count IH]; intros m Hm; simpl.
  - now replace m with n1 by lia.
  - rewrite levenshteinAssign_filling by lia. apply IH. lia.
Qed.

Lemma levenshteinTurn_filledRows (i : nat) :
  i <= n2 ->
  levenshteinTurn string1 string2 (filledRows string1 string2 i) i
  = filledRows string1 string2 (S i).
Proof.
  intros Hi. unfold levenshteinTurn, levenshteinRow.
  pose proof (arraySet_at_length (filledRows string1 string2 i) [i]) as Hrow.
  rewrite length_filledRows in Hrow. rewrite Hrow.
  replace [i] with (filledRow string1 string2 i 1)
    by (unfold filledRow; simpl; now rewrite prefixDistance_column_0).
  fold (filling string1 string2 i 0).
  rewrite (inner_loop_filling i Hi n1 0) by lia.
  unfold filling. now rewrite <- filledRows_S.
Qed.

Lemma outer_loop_filledRows :
  forall count i, i + count = S n2 ->
    fold_left (levenshteinTurn string1 string2) (seq i count)
      (filledRows string1 string2 i)
    = filledRows string1 string2 (S n2).
Proof.
  induction count as [|count IH]; intros i Hi; simpl.
  - now replace i with (S n2) by lia.
  - rewrite levenshteinTurn_filledRows by lia. apply IH. lia.
Qed.

Lemma levenshteinTable_filled :
  levenshteinTable string1 string2 = filledRows string1 string2 (S n2).
Proof.
  unfold levenshteinTable.
  exact (outer_loop_filledRows (S n2) 0 eq_refl).
Qed.

Lemma levenshteinDistance_lev :
  levenshteinDistance string1 string2 = lev (list_ascii_of_string string1) (list_ascii_of_string string2).
Proof.
  unfold levenshteinDistance.
  destruct (Nat.eqb_spec n1 0) as [Hempty1|Hfull1].
  - destruct string1; [|discriminate]. simpl.
    now rewrite length_list_ascii.
  - destruct (Nat.eqb_spec n2 0) as [Hempty2|Hfull2].
    + destruct string2; [|discriminate]. simpl.
      rewrite lev_nil_r. now rewrite length_list_ascii.
    + rewrite levenshteinTable_filled.
      unfold cellAt, filledRows. rewrite nth_map_seq by lia.
      unfold filledRow. rewrite nth_map_seq by lia. simpl.
      unfold prefixDistance.
      rewrite !firstn_all2; [reflexivity | |]; rewrite length_list_ascii; lia.
Qed.

End LevenshteinTable.

(** C9.  [levenshteinDistance a b] is the edit distance of [a] and [b]: [a]
    can be turned into [b] by that many single-character insertions,
    deletions and replacements, and by no fewer; it is the only number with
    this property.  In particular it is the length of the other string when
    one of the two is empty, it is 0 exactly when [a = b], and it is the
    same for [b] and [a]. *)
Theorem levenshteinDistance_is_edit_distance (a b : string) :
  editDistance a b (levenshteinDistance a b) /\
  (forall d, editDistance a b d -> d = levenshteinDistance a b) /\
  (String.length a = 0 -> levenshteinDistance a b = String.length b) /\
  (String.length b = 0 -> levenshteinDistance a b = String.length a) /\
  (levenshteinDistance a b = 0 <-> a = b) /\
  levenshteinDistance a b = levenshteinDistance b a.
Proof.
  rewrite (levenshteinDistance_lev b a), !levenshteinDistance_lev.
  split; [|split; [|split; [|split; [|split]]]].
  - apply lev_least.
  - intros d [Hreach Hleast].
    apply Nat.le_antisymm; [apply Hleast, lev_reached | now apply lev_lower_bound].
  - intros Hempty. destruct a; [|discriminate]. simpl. apply length_list_ascii.
  - intros Hempty. destruct b; [|discriminate]. simpl.
    rewrite lev_nil_r. apply length_list_ascii.
  - split.
    + intros Hzero. apply lev_zero in Hzero.
      rewrite <- (string_of_list_ascii_of_string a), Hzero.
      apply string_of_list_ascii_of_string.
    + intros ->. apply lev_same.
  - apply lev_sym.
Qed.

Lemma levenshteinDistance_is_edit_distance_witness :
  String.length "" = 0 /\
  levenshteinDistance "" "sitting" = 7 /\
  "kitten" = "kitten" /\
  levenshteinDistance "kitten" "kitten" = 0 /\
  levenshteinDistance "kitten" "sitting" = 3.
Proof.
  split; [reflexivity|].
  split; [exact (proj1 (proj2 (proj2 (levenshteinDistance_is_edit_distance "" "sitting")))
                   eq_refl)|].
  split; [reflexivity|].
  split; [exact (proj2 (proj1 (proj2 (proj2 (proj2 (proj2
                   (levenshteinDistance_is_edit_distance "kitten" "kitten"))))))
                   eq_refl)|].
  reflexivity.
Defined.

(** ** Trimming *)

Lemma prefix_append (t s : string) : String.prefix t (t ++ s) = true.
Proof.
  induction t as [|c t IH]; simpl; [now destruct s|].
  destruct (ascii_dec c c) as [_|Hneq]; [exact IH | now contradiction Hneq].
Qed.

Lemma prefix_split (t : string) :
  forall s, String.prefix t s = true -> exists rest, s = t ++ rest.
Proof.
  induction t as [|c t IH]; intros s Hprefix.
  - now exists s.
  - destruct s as [|d s]; [discriminate|]. simpl in Hprefix.
    destruct (ascii_dec c d) as [<-|Hneq]; [|discriminate].
    destruct (IH s Hprefix) as [rest ->]. now exists rest.
Qed.

Lemma substring_append_left (s t : string) :
  substring 0 (String.length s) (s ++ t) = s.
Proof.
  induction s as [|c s IH]; simpl; [now destruct t | now rewrite IH].
Qed.

Lemma substring_halves (s : string) :
  forall n, n <= String.length s ->
            substring 0 n s ++ substring n (String.length s - n) s = s.
Proof.
  induction s as [|c s IH]; intros [|n] Hn; simpl in *; try lia.
  - reflexivity.
  - now rewrite substring_all.
  - rewrite IH by lia. reflexivity.
Qed.

Lemma trimStart_append (t s : string) : trimStart (t ++ s) t = s.
Proof.
  unfold trimStart, startsWith, substring_from.
  rewrite prefix_append, length_append.
  replace (String.length t + String.length s - String.length t)
    with (String.length s) by lia.
  apply substring_append_right.
Qed.

(** X1.  [trimStart] takes the prefix off once: when [inputString] begins
    with [trimString], the result is what follows that first occurrence, so
    that [trimString] followed by the result is [inputString] again;
    otherwise the result is [inputString] itself.  In particular it undoes
    one prepending of [trimString], and no more than one. *)
Theorem trimStart_cases (inputString trimString : string) :
  (startsWith inputString trimString = true ->
   trimString ++ trimStart inputString trimString = inputString) /\
  (startsWith inputString trimString = false ->
   trimStart inputString trimString = inputString) /\
  trimStart (trimString ++ inputString) trimString = inputString /\
  trimStart (trimString ++ trimString ++ inputString) trimString
  = trimString ++ inputString.
Proof.
  split; [|split; [|split]].
  - intros Hstarts. destruct (prefix_split _ _ Hstarts) as [rest ->].
    now rewrite trimStart_append.
  - intros Hnot. unfold trimStart. now rewrite Hnot.
  - apply trimStart_append.
  - apply trimStart_append.
Qed.

Lemma trimStart_cases_witness :
  startsWith ".html" "." = true /\ "." ++ trimStart ".html" "." = ".html".
Proof.
  split; [reflexivity|].
  exact (proj1 (trimStart_cases ".html" ".") eq_refl).
Defined.

(** X2.  [trimEnd] takes the suffix off once: when [inputString] ends with
    [trimString], the result followed by [trimString] is [inputString];
    otherwise the result is [inputString] itself.  It undoes one appending
    of [trimString], and no more than one. *)
Theorem trimEnd_cases (inputString trimString : string) :
  (endsWith inputString trimString = true ->
   trimEnd inputString trimString ++ trimString = inputString) /\
  (endsWith inputString trimString = false ->
   trimEnd inputString trimString = inputString) /\
  trimEnd (inputString ++ trimString) trimString = inputString /\
  trimEnd ((inputString ++ trimString) ++ trimString) trimString
  = inputString ++ trimString.
Proof.
  assert (Happend : forall s t, trimEnd (s ++ t) t = s).
  { intros s t. unfold trimEnd, substring_to.
    rewrite endsWith_append, length_append.
    replace (String.length s + String.length t - String.length t)
      with (String.length s) by lia.
    apply substring_append_left. }
  split; [|split; [|split]].
  - intros Hends. unfold trimEnd, substring_to. rewrite Hends.
    unfold endsWith in Hends. apply andb_prop in Hends as [Hlen Hsuffix].
    apply Nat.leb_le in Hlen. apply String.eqb_eq in Hsuffix.
    pose proof (substring_halves inputString
                  (String.length inputString - String.length trimString)
                  ltac:(lia)) as Hhalves.
    replace (String.length inputString
             - (String.length inputString - String.length trimString))
      with (String.length trimString) in Hhalves by lia.
    now rewrite Hsuffix in Hhalves.
  - intros Hnot. unfold trimEnd. now rewrite Hnot.
  - apply Happend.
  - apply Happend.
Qed.

Lemma trimEnd_cases_witness :
  endsWith "notes.md" ".md" = true /\ trimEnd "notes.md" ".md" ++ ".md" = "notes.md".
Proof.
  split; [reflexivity|].
  exact (proj1 (trimEnd_cases "notes.md" ".md") eq_refl).
Defined.

(** ** Searching for substrings *)

Lemma includes_unfold (str sub : string) :
  includes str sub
  = String.prefix sub str ||
    match str with
    | EmptyString => false
    | String _ rest => includes rest sub
    end.
Proof. destruct str; reflexivity. Qed.

Lemma includes_occurs (str sub : string) :
  includes str sub = true <-> exists before after, str = before ++ sub ++ after.
Proof.
  split.
  - induction str as [|c str IH]; rewrite includes_unfold; intros Hfound.
    + rewrite orb_false_r in Hfound.
      destruct (prefix_split _ _ Hfound) as [after Hafter].
      now exists "", after.
    + apply orb_prop in Hfound as [Hhere|Hlater].
      * destruct (prefix_split _ _ Hhere) as [after Hafter].
        now exists "", after.
      * destruct (IH Hlater) as [before [after ->]].
        now exists (String c before), after.
  - intros [before [after ->]].
    induction before as [|c before IH].
    + change ("" ++ sub ++ after) with (sub ++ after).
      now rewrite includes_unfold, prefix_append.
    + change (String c before ++ sub ++ after)
        with (String c (before ++ sub ++ after)).
      rewrite includes_unfold. cbv beta iota. rewrite IH. apply orb_true_r.
Qed.

(** X3.  [includesAny str substrings] is [true] exactly when one of the
    [substrings] occurs somewhere in [str].  So it is [false] for an empty
    list, and [true] as soon as the list holds the empty string. *)
Theorem includesAny_occurs (str : string) (substrings : list string) :
  (includesAny str substrings = true <->
   exists substring, In substring substrings /\
     exists before after, str = before ++ substring ++ after) /\
  includesAny str [] = false /\
  (In "" substrings -> includesAny str substrings = true).
Proof.
  assert (Hiff : forall subs,
             includesAny str subs = true <->
             exists substring, In substring subs /\
               exists before after, str = before ++ substring ++ after).
  { induction subs as [|first rest IH]; simpl.
    - split; [discriminate | intros [sub [[] _]]].
    - destruct (includes str first) eqn:Hfirst.
      + split; [|reflexivity]. intros _. exists first. split; [now left|].
        now apply includes_occurs.
      + rewrite IH. split.
        * intros [sub [Hin Hocc]]. exists sub. split; [now right | exact Hocc].
        * intros [sub [[<-|Hin] Hocc]].
          -- apply includes_occurs in Hocc. congruence.
          -- now exists sub. }
  split; [apply Hiff|]. split; [reflexivity|].
  intros Hempty. apply Hiff. exists "". split; [exact Hempty|].
  now exists "", str.
Qed.

Lemma includesAny_occurs_witness :
  In "" [".png"; ""] /\ includesAny "notes.md" [".png"; ""] = true.
Proof.
  assert (Hin : In "" [".png"; ""]) by (right; left; reflexivity).
  split; [exact Hin|].
  exact (proj2 (proj2 (includesAny_occurs "notes.md" [".png"; ""])) Hin).
Defined.

(** ** Plugins *)

(** X4.  The ids returned by [getPluginIDs] are exactly the enabled ids
    for which [getPluginManifest] returns a manifest (not [null]); they
    come in the order of the enabled set, each once. *)
Theorem getPluginIDs_have_manifests {PluginManifest : Type}
    (plugins : Plugins PluginManifest) :
  (forall id, In id (getPluginIDs plugins) <->
              In id (enabledPlugins plugins) /\ getPluginManifest plugins id <> None) /\
  (NoDup (enabledPlugins plugins) -> NoDup (getPluginIDs plugins)) /\
  (forall before id after,
      enabledPlugins plugins = (before ++ id :: after)%list ->
      getPluginManifest plugins id <> None ->
      getPluginIDs plugins
      = (getPluginIDs {| enabledPlugins := before; manifests := manifests plugins |}
         ++ id :: getPluginIDs {| enabledPlugins := after;
                                  manifests := manifests plugins |})%list).
Proof.
  unfold getPluginIDs, getPluginManifest. split; [|split].
  - intros id. rewrite filter_In. unfold isDefined.
    destruct (manifests plugins id); split; intros [Hin Hdef];
      (split; [exact Hin|]); congruence.
  - apply NoDup_filter.
  - intros before id after Hshape Hdef. simpl. rewrite Hshape, filter_app. simpl.
    destruct (manifests plugins id); [reflexivity | now contradiction Hdef].
Qed.

Lemma getPluginIDs_have_manifests_witness :
  NoDup ["dataview"; "gone"; "excalidraw"] /\
  NoDup (getPluginIDs
           {| enabledPlugins := ["dataview"; "gone"; "excalidraw"];
              manifests := fun id => if String.eqb id "gone" then None else Some id |}).
Proof.
  assert (Hset : NoDup ["dataview"; "gone"; "excalidraw"]).
  { repeat constructor; simpl; intuition discriminate. }
  split; [exact Hset|].
  exact (proj1 (proj2 (getPluginIDs_have_manifests
                         {| enabledPlugins := ["dataview"; "gone"; "excalidraw"];
                            manifests := fun id =>
                              if String.eqb id "gone" then None else Some id |}))
           Hset).
Defined.

(** ** Padding with any pad string *)

(** X5.  [padStringBeggining] repeats the whole pad string, not a number of
    characters: for [length] at least the length of [str], the result is
    [length - str.length] copies of [char] followed by [str], of length
    [(length - str.length) * char.length + str.length].  So [str] comes back
    unchanged when it already has the target length or when the pad string
    is empty, and a pad string of two characters overshoots the target. *)
Theorem padStringBeggining_any_pad (str char : string) (length : Z) :
  (Z.of_nat (String.length str) <= length)%Z ->
  let copies := Z.to_nat (length - Z.of_nat (String.length str)) in
  padStringBeggining str length char = Returned (repeat_string char copies ++ str) /\
  String.length (repeat_string char copies ++ str)
  = copies * String.length char + String.length str /\
  (length = Z.of_nat (String.length str) ->
   padStringBeggining str length char = Returned str) /\
  (char = "" -> padStringBeggining str length char = Returned str).
Proof.
  intros Hlen copies. unfold padStringBeggining, String_repeat.
  destruct (Z.ltb_spec (length - Z.of_nat (String.length str)) 0) as [Hneg|_]; [lia|].
  fold copies. split; [reflexivity|]. split; [|split].
  - now rewrite length_append, length_repeat_string.
  - intros Hsame. subst copies. rewrite Hsame, Z.sub_diag. reflexivity.
  - intros ->. f_equal. induction copies as [|n IH]; simpl; [reflexivity | exact IH].
Qed.

Lemma padStringBeggining_any_pad_witness :
  (Z.of_nat (String.length "7") <= 3)%Z /\
  padStringBeggining "7" 3 "ab" = Returned "abab7".
Proof.
  assert (Hlen : (Z.of_nat (String.length "7") <= 3)%Z) by (simpl; lia).
  split; [exact Hlen|].
  exact (proj1 (padStringBeggining_any_pad "7" "ab" 3 Hlen)).
Defined.

(** ** More on the edit distance *)

Lemma edits_append (n m : nat) (a b c : list ascii) :
  edits n a b -> edits m b c -> edits (n + m) a c.
Proof.
  induction 1 as [l | n a b b' Hedit Hrest IH]; intros Hnext; simpl.
  - exact Hnext.
  - apply edits_more with (b := b); [exact Hedit | now apply IH].
Qed.

Lemma lev_triangle (a b c : list ascii) : lev a c <= lev a b + lev b c.
Proof.
  apply lev_lower_bound, edits_append with (b := b); apply lev_reached.
Qed.

Lemma lev_upper (a : list ascii) :
  forall b, lev a b <= Nat.max (List.length a) (List.length b).
Proof.
  induction a as [|x a IH]; intros [|y b]; simpl List.length.
  - simpl. lia.
  - simpl. lia.
  - rewrite lev_nil_r. simpl. lia.
  - rewrite lev_cons. pose proof (IH b). pose proof (substitutionCost_le x y).
    lev_arith.
Qed.

Lemma lev_lower (a : list ascii) :
  forall b, List.length a - List.length b <= lev a b.
Proof.
  induction a as [|x a IHa]; intros b; [simpl; lia|].
  induction b as [|y b IHb]; [rewrite lev_nil_r; simpl; lia|].
  rewrite lev_cons.
  pose proof (IHa (y :: b)). pose proof (IHa b). simpl List.length in *.
  lev_arith.
Qed.

Lemma lev_same_head (x : ascii) (a b : list ascii) :
  lev (x :: a) (x :: b) = lev a b.
Proof.
  rewrite lev_cons, substitutionCost_same.
  pose proof (lev_add_left x a b) as Hleft.
  pose proof (lev_add_left x b a) as Hright.
  rewrite (lev_sym b a), (lev_sym (x :: b) a) in Hright.
  lev_arith.
Qed.

Lemma lev_same_prefix (p a b : list ascii) : lev (p ++ a) (p ++ b) = lev a b.
Proof.
  induction p as [|x p IH]; [reflexivity|].
  now rewrite <- !app_comm_cons, lev_same_head.
Qed.

Lemma lev_same_suffix (s a b : list ascii) : lev (a ++ s) (b ++ s) = lev a b.
Proof.
  rewrite <- (lev_rev (a ++ s)), !rev_app_distr, lev_same_prefix. apply lev_rev.
Qed.

Lemma list_ascii_append (s t : string) :
  list_ascii_of_string (s ++ t)
  = (list_ascii_of_string s ++ list_ascii_of_string t)%list.
Proof.
  induction s as [|c s IH]; simpl; [reflexivity | now rewrite IH].
Qed.

Lemma edit_changes (a b : list ascii) : edit a b -> a <> b.
Proof.
  induction 1 as [x l | x l | x y l Hxy | x l l' Hedit IH]; intros Heq.
  - apply (f_equal (@List.length ascii)) in Heq. simpl in Heq. lia.
  - apply (f_equal (@List.length ascii)) in Heq. simpl in Heq. lia.
  - injection Heq as Hhead. now apply Hxy.
  - injection Heq as Htail. now apply IH.
Qed.

(** X6.  [levenshteinDistance] obeys the triangle inequality: going from
    [a] to [c] costs no more than going from [a] to [b] and then from [b]
    to [c]. *)
Theorem levenshteinDistance_triangle (a b c : string) :
  levenshteinDistance a c <= levenshteinDistance a b + levenshteinDistance b c.
Proof.
  rewrite !levenshteinDistance_lev. apply lev_triangle.
Qed.

(** X7.  [levenshteinDistance a b] is at least the difference of the two
    lengths and at most the greater of the two lengths. *)
Theorem levenshteinDistance_bounds (a b : string) :
  String.length a - String.length b <= levenshteinDistance a b /\
  String.length b - String.length a <= levenshteinDistance a b /\
  levenshteinDistance a b <= Nat.max (String.length a) (String.length b).
Proof.
  rewrite levenshteinDistance_lev, <- !length_list_ascii.
  split; [apply lev_lower|]. split; [rewrite lev_sym; apply lev_lower | apply lev_upper].
Qed.

(** X8.  A prefix or a suffix shared by the two strings does not count:
    the distance of [p ++ a ++ s] and [p ++ b ++ s] is that of [a] and [b]. *)
Theorem levenshteinDistance_shared_ends (p s a b : string) :
  levenshteinDistance (p ++ a ++ s) (p ++ b ++ s) = levenshteinDistance a b.
Proof.
  rewrite !levenshteinDistance_lev, !list_ascii_append.
  now rewrite lev_same_prefix, lev_same_suffix.
Qed.

(** X9.  The distance is 1 exactly when one string comes from the other by
    a single edit: one character inserted, deleted or replaced by a
    different one. *)
Theorem levenshteinDistance_one_edit (a b : string) :
  levenshteinDistance a b = 1 <->
  edit (list_ascii_of_string a) (list_ascii_of_string b).
Proof.
  rewrite levenshteinDistance_lev. split.
  - intros Hone.
    pose proof (lev_reached (list_ascii_of_string a) (list_ascii_of_string b)) as Hreach.
    rewrite Hone in Hreach.
    inversion Hreach as [|n x y z Hedit Hrest]; subst.
    inversion Hrest; subst. exact Hedit.
  - intros Hedit.
    assert (Hle : lev (list_ascii_of_string a) (list_ascii_of_string b) <= 1).
    { apply lev_lower_bound, edits_more with (b := list_ascii_of_string b);
        [exact Hedit | apply edits_none]. }
    assert (Hnz : lev (list_ascii_of_string a) (list_ascii_of_string b) <> 0).
    { intros Hzero. apply lev_zero in Hzero. now apply (edit_changes _ _ Hedit). }
    lia.
Qed.

(** ** More on the polling waiter *)

Section WaitUntilRuns.

Context {Num : Type} {numbers : JSNumber Num}.

Variable condition : nat -> bool.
Variables timeout interval : Num.

Local Abbreviation run := (waitUntil condition timeout interval).
Local Abbreviation quiet := (quietTick condition timeout interval).

(** Every run is of one of four kinds. *)
Lemma run_kinds (ticks : nat) :
  (condition 0 = true /\
   run ticks = {| timer := numberZero; intervalActive := false; settled := Some true;
                  samples := 1; timerLog := [Resolve true] |}) \/
  (condition 0 = false /\
   (forall m, 1 <= m <= ticks -> quiet m) /\
   run ticks = pending interval ticks) \/
  (condition 0 = false /\
   exists n, 1 <= n <= ticks /\ (forall m, 1 <= m < n -> quiet m) /\
             condition n = true /\ run ticks = resolvedTrue interval n) \/
  (condition 0 = false /\
   exists n, 1 <= n <= ticks /\ (forall m, 1 <= m < n -> quiet m) /\
             condition n = false /\
             numberGeq (accumulated interval n) timeout = true /\
             run ticks = resolvedFalse interval n).
Proof.
  destruct (condition 0) eqn:Hnow.
  - left. split; [reflexivity|]. unfold waitUntil. now rewrite Hnow.
  - right. induction ticks as [|ticks IH].
    + left. split; [reflexivity|]. split; [intros m Hm; lia|].
      now rewrite run_from_pending.
    + rewrite run_from_pending, runTicks_last, <- run_from_pending by assumption.
      destruct IH as [[_ [Hquiet Hrun]] | [[_ [n [Hn [Hquiet [Htrue Hrun]]]]]
                                          | [_ [n [Hn [Hquiet [Hfalse [Hlate Hrun]]]]]]]];
        rewrite Hrun.
      * destruct (condition (S ticks)) eqn:Hnext.
        -- right; left. split; [reflexivity|]. exists (S ticks).
           split; [lia|]. split; [intros m Hm; apply Hquiet; lia|].
           split; [exact Hnext | now apply tick_finds_true].
        -- destruct (numberGeq (accumulated interval (S ticks)) timeout) eqn:Hreached.
           ++ right; right. split; [reflexivity|]. exists (S ticks).
              split; [lia|]. split; [intros m Hm; apply Hquiet; lia|].
              split; [exact Hnext|]. split; [exact Hreached | now apply tick_times_out].
           ++ left. split; [reflexivity|]. split.
              ** intros m Hm. destruct (Nat.eq_dec m (S ticks)) as [->|Hneq];
                   [now split | apply Hquiet; lia].
              ** apply tick_pending. now split.
      * right; left. split; [reflexivity|]. exists n.
        split; [lia|]. split; [exact Hquiet|]. split; [exact Htrue|]. reflexivity.
      * right; right. split; [reflexivity|]. exists n.
        split; [lia|]. split; [exact Hquiet|]. split; [exact Hfalse|].
        split; [exact Hlate | reflexivity].
Qed.

Lemma waitUntil_idle_after (ticks : nat) :
  settled (run ticks) <> None -> intervalActive (run ticks) = false.
Proof.
  destruct (run_kinds ticks)
    as [[_ Hrun] | [[_ [_ Hrun]] | [[_ [n [_ [_ [_ Hrun]]]]]
                                   | [_ [n [_ [_ [_ [_ Hrun]]]]]]]]];
    rewrite Hrun; simpl; intros Hsettled; congruence.
Qed.

End WaitUntilRuns.

Section WaitUntilGuarantees.

Context {Num : Type} {numbers : JSNumber Num}.

Variable condition : nat -> bool.
Variables timeout interval : Num.

(** X10.  At every moment of every run: the interval is active exactly
    when the promise is not settled yet; at most one timer was set, it was
    cleared once, just before the one resolution, and never when the
    predicate held at the call; the predicate was called at most once at the
    call and once per tick. *)
Theorem waitUntil_invariant (ticks : nat) :
  (settled (waitUntil condition timeout interval ticks) = None <->
   intervalActive (waitUntil condition timeout interval ticks) = true) /\
  (timerLog (waitUntil condition timeout interval ticks) = [Resolve true] /\
   settled (waitUntil condition timeout interval ticks) = Some true \/
   timerLog (waitUntil condition timeout interval ticks) = [SetInterval interval] /\
   settled (waitUntil condition timeout interval ticks) = None \/
   exists value,
     timerLog (waitUntil condition timeout interval ticks)
     = [SetInterval interval; ClearInterval; Resolve value] /\
     settled (waitUntil condition timeout interval ticks) = Some value) /\
  1 <= samples (waitUntil condition timeout interval ticks) <= S ticks.
Proof.
  destruct (run_kinds condition timeout interval ticks)
    as [[_ Hrun] | [[_ [_ Hrun]] | [[_ [n [Hn [_ [_ Hrun]]]]]
                                   | [_ [n [Hn [_ [_ [_ Hrun]]]]]]]]];
    rewrite Hrun; simpl; (split; [split; intros; congruence|]); (split; [|lia]).
  - left. now split.
  - right; left. now split.
  - right; right. now exists true.
  - right; right. now exists false.
Qed.

(** X11.  The wait is bounded by the accumulated time: once the variable
    [timer], after [interval] has been added to it [n] times (as the code
    adds it, with the rounding of the numbers at hand), is at least the
    timeout, the promise is settled from tick [n] on and the interval
    cleared, whatever the predicate does. *)
Theorem waitUntil_settles_by_timeout (n ticks : nat) :
  1 <= n <= ticks ->
  numberGeq (accumulated interval n) timeout = true ->
  settled (waitUntil condition timeout interval ticks) <> None /\
  intervalActive (waitUntil condition timeout interval ticks) = false.
Proof.
  intros Hn Hlate.
  destruct (run_kinds condition timeout interval ticks)
    as [[_ Hrun] | [[_ [Hquiet Hrun]] | [[_ [k [Hk [_ [_ Hrun]]]]]
                                        | [_ [k [Hk [_ [_ [_ Hrun]]]]]]]]];
    try (rewrite Hrun; simpl; split; [discriminate | reflexivity]).
  destruct (Hquiet n Hn) as [_ Hearly]. congruence.
Qed.

(** X13.  What a settled promise says about the predicate.  Resolved to
    [true]: the last call of the predicate returned [true] and every call
    before it returned [false].  Resolved to [false]: every call of the
    predicate returned [false], and the accumulated time is at least the
    timeout. *)
Theorem waitUntil_result_sound (ticks : nat) :
  (settled (waitUntil condition timeout interval ticks) = Some true ->
   condition (samples (waitUntil condition timeout interval ticks) - 1) = true /\
   forall m, m < samples (waitUntil condition timeout interval ticks) - 1 ->
             condition m = false) /\
  (settled (waitUntil condition timeout interval ticks) = Some false ->
   (forall m, m < samples (waitUntil condition timeout interval ticks) ->
              condition m = false) /\
   numberGeq (timer (waitUntil condition timeout interval ticks)) timeout = true).
Proof.
  destruct (run_kinds condition timeout interval ticks)
    as [[Hnow Hrun] | [[Hnow [Hquiet Hrun]]
                      | [[Hnow [n [Hn [Hquiet [Htrue Hrun]]]]]
                        | [Hnow [n [Hn [Hquiet [Hfalse [Hlate Hrun]]]]]]]]];
    rewrite Hrun; simpl; split; intros Hsettled; try discriminate.
  - split; [exact Hnow | intros m Hm; lia].
  - rewrite Nat.sub_0_r. split; [exact Htrue|].
    intros m Hm. destruct m as [|m]; [exact Hnow | apply Hquiet; lia].
  - split; [|exact Hlate].
    intros m Hm. destruct (Nat.eq_dec m n) as [->|Hneq]; [exact Hfalse|].
    destruct m as [|m]; [exact Hnow | apply Hquiet; lia].
Qed.

(** X14.  A settled promise stays as it is: further ticks change nothing,
    neither the value, nor the timer, nor the number of calls of the
    predicate. *)
Theorem waitUntil_settled_is_final (ticks later : nat) :
  settled (waitUntil condition timeout interval ticks) <> None ->
  ticks <= later ->
  waitUntil condition timeout interval later
  = waitUntil condition timeout interval ticks.
Proof.
  intros Hsettled Hlater.
  destruct (condition 0) eqn:Hnow.
  - unfold waitUntil. now rewrite Hnow.
  - pose proof (waitUntil_idle_after condition timeout interval ticks) as Hidle.
    rewrite !run_from_pending in * by assumption.
    replace later with (ticks + (later - ticks)) by lia.
    rewrite runTicks_split. apply runTicks_idle. now apply Hidle.
Qed.

End WaitUntilGuarantees.

Section WaitUntilIntegers.

Variable condition : nat -> bool.
Variables timeout interval : Z.

Lemma accumulated_integers (n : nat) :
  accumulated interval n = (Z.of_nat n * interval)%Z.
Proof.
  induction n as [|n IH]; [reflexivity|].
  change (accumulated interval (S n)) with (accumulated interval n + interval)%Z.
  rewrite IH. lia.
Qed.

(** X12.  With an interval of zero or less and a positive timeout, the
    accumulated time never reaches the timeout: if the predicate never
    holds, the promise is never settled and the interval stays active,
    however many ticks go by. *)
Theorem waitUntil_never_settles (ticks : nat) :
  (interval <= 0)%Z -> (0 < timeout)%Z ->
  (forall m, condition m = false) ->
  settled (waitUntil condition timeout interval ticks) = None /\
  intervalActive (waitUntil condition timeout interval ticks) = true /\
  samples (waitUntil condition timeout interval ticks) = S ticks.
Proof.
  intros Hinterval Htimeout Hnever.
  rewrite run_from_pending by apply Hnever.
  rewrite runTicks_pending.
  - repeat split.
  - intros m Hm. split; [apply Hnever|].
    rewrite accumulated_integers. change (numberGeq ?x ?y) with (Z.geb x y).
    rewrite Z.geb_leb. apply Z.leb_gt. nia.
Qed.

End WaitUntilIntegers.

(** With doubles: 0.1 added nine times is at least 0.8. *)
Lemma waitUntil_settles_by_timeout_witness :
  1 <= 9 <= 12 /\
  numberGeq (accumulated oneTenth 9) eightTenths = true /\
  settled (waitUntil (fun _ => false) eightTenths oneTenth 12) <> None /\
  intervalActive (waitUntil (fun _ => false) eightTenths oneTenth 12) = false.
Proof.
  assert (Hn : 1 <= 9 <= 12) by lia.
  assert (Hlate : numberGeq (accumulated oneTenth 9) eightTenths = true)
    by (vm_compute; reflexivity).
  split; [exact Hn|]. split; [exact Hlate|].
  exact (waitUntil_settles_by_timeout (fun _ => false) eightTenths oneTenth 9 12
           Hn Hlate).
Defined.

Lemma waitUntil_never_settles_witness :
  (0 <= 0)%Z /\ (0 < 1000)%Z /\
  settled (waitUntil (fun _ => false) 1000%Z 0%Z 40) = None /\
  intervalActive (waitUntil (fun _ => false) 1000%Z 0%Z 40) = true /\
  samples (waitUntil (fun _ => false) 1000%Z 0%Z 40) = 41.
Proof.
  split; [lia|]. split; [lia|].
  exact (waitUntil_never_settles (fun _ => false) 1000 0 40
           ltac:(lia) ltac:(lia) (fun _ => eq_refl)).
Defined.

Lemma waitUntil_result_sound_witness :
  settled (waitUntil (fun n => Nat.eqb n 2) 1000%Z 100%Z 6) = Some true /\
  Nat.eqb (samples (waitUntil (fun n => Nat.eqb n 2) 1000%Z 100%Z 6) - 1) 2 = true.
Proof.
  split; [reflexivity|].
  exact (proj1 (proj1 (waitUntil_result_sound (fun n => Nat.eqb n 2) 1000%Z 100%Z 6)
                  eq_refl)).
Defined.

Lemma waitUntil_settled_is_final_witness :
  settled (waitUntil (fun n => Nat.eqb n 2) 1000%Z 100%Z 3) <> None /\
  3 <= 9 /\
  waitUntil (fun n => Nat.eqb n 2) 1000%Z 100%Z 9
  = waitUntil (fun n => Nat.eqb n 2) 1000%Z 100%Z 3.
Proof.
  assert (Hsettled :
            settled (waitUntil (fun n => Nat.eqb n 2) 1000%Z 100%Z 3) <> None)
    by discriminate.
  assert (Hlater : 3 <= 9) by lia.
  split; [exact Hsettled|]. split; [exact Hlater|].
  exact (waitUntil_settled_is_final (fun n => Nat.eqb n 2) 1000%Z 100%Z 3 9
           Hsettled Hlater).
Defined.

(** ** More on batch delivery *)

Section DeliveryAccounts.

Context {Path : Type} {paths : PathClass Path}.
Context {W E : Type} {host : Host W E}.

Lemma mkdirs_of_turns (rest : list (Downloadable Path)) (rootPath : Path) :
  forall (i total : nat) (outcomes : list (Outcome E)),
    List.length outcomes = List.length rest ->
    filter isMkdir (turnsTrace i total rest rootPath outcomes)
    = map (mkdirOf rootPath) rest.
Proof.
  induction rest as [|file rest IH]; intros i total outcomes Hlen.
  - destruct outcomes; reflexivity.
  - destruct outcomes as [|outcome outcomes]; [discriminate|].
    simpl. rewrite filter_app, IH by (simpl in Hlen; lia).
    destruct outcome; reflexivity.
Qed.

Lemma counts_of_turns (rest : list (Downloadable Path)) (rootPath : Path) :
  forall (i total : nat) (outcomes : list (Outcome E)),
    List.length outcomes = List.length rest ->
    let run := turnsTrace i total rest rootPath outcomes in
    List.length (filter isLogError run) = List.length (filter isShowNotice run) /\
    List.length (filter isWriteFile run) <= List.length rest /\
    List.length (filter isLogError run) <= List.length rest /\
    List.length rest
    <= List.length (filter isWriteFile run) + List.length (filter isLogError run) /\
    existsb isDialog run = false.
Proof.
  induction rest as [|file rest IH]; intros i total outcomes Hlen.
  - destruct outcomes; simpl; repeat split; lia.
  - destruct outcomes as [|outcome outcomes]; [discriminate|].
    destruct (IH (S i) total outcomes ltac:(simpl in Hlen; lia))
      as [Hpairs [Hwrites [Hlogs [Hcover Hquiet]]]].
    destruct outcome; simpl; rewrite ?Hquiet; repeat split; simpl; lia.
Qed.

(** X15.  Whatever the adapter replies, in a run of [downloadFiles] on [N]
    files: the directory of every file is requested, once each, in list
    order, also after failures; the failure notices are as many as the
    entries in the error log; at most [N] writes are attempted and at most
    [N] failures reported, and together they are at least [N] (every file
    has its write attempted or its failure reported); no dialog is opened. *)
Theorem downloadFiles_accounts (files : list (Downloadable Path))
    (rootPath : Path) (w : W) :
  let run := trace (downloadFiles files rootPath w) in
  let N := List.length files in
  filter isMkdir run = map (fun file => Mkdir (dirPathOf rootPath file)) files /\
  List.length (filter isLogError run) = List.length (filter isShowNotice run) /\
  List.length (filter isWriteFile run) <= N /\
  List.length (filter isLogError run) <= N /\
  N <= List.length (filter isWriteFile run) + List.length (filter isLogError run) /\
  existsb isDialog run = false.
Proof.
  intros run N. subst run. unfold downloadFiles. fold N.
  destruct (downloadFilesFrom_run files rootPath 0 N w) as [Hrun _].
  rewrite Hrun. split.
  - apply mkdirs_of_turns, length_runOutcomes.
  - apply (counts_of_turns files rootPath 0 N), length_runOutcomes.
Qed.

Lemma turnOutcome_mkdir_failed (rootPath : Path) (file : Downloadable Path) (w : W) :
  mkdirFails rootPath file ->
  exists error, fst (turnOutcome rootPath file w) = MkdirFailed error.
Proof.
  intros Hmkdir. unfold turnOutcome. specialize (Hmkdir w).
  destruct (adapterMkdir (dirPathOf rootPath file) w) as [[error|] w1];
    [now exists error | now contradiction Hmkdir].
Qed.

(** The outcomes when every turn but the [k]-th goes well. *)
Lemma runOutcomes_one_turn (rootPath : Path) (odd : Downloadable Path) :
  forall (rest : list (Downloadable Path)) (k : nat),
    nth_error rest k = Some odd ->
    (forall j file, nth_error rest j = Some file -> j <> k ->
                    mkdirSucceeds rootPath file /\ writeSucceeds rootPath file) ->
    forall w : W,
    exists w' : W,
      runOutcomes rest rootPath w
      = (repeat Written k
         ++ fst (turnOutcome rootPath odd w')
            :: repeat Written (List.length rest - k - 1))%list.
Proof.
  induction rest as [|file rest IH]; intros k Hk Hothers w.
  - destruct k; discriminate.
  - destruct k as [|k]; simpl in Hk |- *.
    + injection Hk as ->. exists w.
      destruct (turnOutcome rootPath odd w) as [outcome w1]. simpl.
      f_equal. rewrite Nat.sub_0_r.
      apply runOutcomes_all_written. intros other Hother.
      destruct (In_nth_error _ _ Hother) as [j Hj].
      apply (Hothers (S j) other Hj). discriminate.
    + pose proof (turnOutcome_written rootPath file w
                    (proj1 (Hothers 0 file eq_refl ltac:(discriminate)))
                    (proj2 (Hothers 0 file eq_refl ltac:(discriminate)))) as Hfirst.
      destruct (turnOutcome rootPath file w) as [outcome w1]. simpl in Hfirst.
      subst outcome.
      destruct (IH k Hk
                  (fun j other Hj Hneq =>
                     Hothers (S j) other Hj (fun Heq => Hneq (eq_add_S _ _ Heq)))
                  w1) as [w' Hrest].
      exists w'. now rewrite Hrest.
Qed.

Lemma turns_mkdir_failure (rootPath : Path) (locked : Downloadable Path) (error : E) :
  forall (rest : list (Downloadable Path)) (k i total : nat),
    nth_error rest k = Some locked ->
    let run := turnsTrace i total rest rootPath
                 (repeat Written k
                  ++ MkdirFailed error :: repeat Written (List.length rest - k - 1)) in
    filter isWriteFile run
    = map (writeOf rootPath) (firstn k rest ++ skipn (S k) rest) /\
    filter isLogError run = [failureLog locked error] /\
    filter isShowNotice run = [failureNotice locked].
Proof.
  induction rest as [|file rest IH]; intros k i total Hk.
  - destruct k; discriminate.
  - destruct k as [|k]; simpl in Hk.
    + injection Hk as ->. simpl. rewrite Nat.sub_0_r.
      destruct (turns_all_written rest rootPath (S i) total)
        as [Hwrites [Hlogs Hnotices]].
      unfold writeOf, failureLog, failureNotice in *. simpl.
      rewrite Hwrites, Hlogs, Hnotices. repeat split.
    + destruct (IH k (S i) total Hk) as [Hwrites [Hlogs Hnotices]].
      unfold writeOf, failureLog, failureNotice in *. simpl.
      rewrite Hwrites, Hlogs, Hnotices. repeat split.
Qed.

(** X16.  Let the replies of the adapter in the run be: the creation of
    the directory of [files[k]] rejected with [error], every other
    directory created and every other file written.  Then the write of
    [files[k]] is not attempted at all, every other file is written, in
    order, and the failure of [files[k]] is logged once and notified once,
    under its relative path. *)
Theorem downloadFiles_mkdir_failure (files : list (Downloadable Path))
    (rootPath : Path) (k : nat) (locked : Downloadable Path) (error : E) (w : W) :
  nth_error files k = Some locked ->
  runOutcomes files rootPath w
  = (repeat Written k
     ++ MkdirFailed error :: repeat Written (List.length files - k - 1))%list ->
  let run := trace (downloadFiles files rootPath w) in
  filter isWriteFile run
  = map (fun file => WriteFile (filePathOf rootPath file) (contentString file))
        (firstn k files ++ skipn (S k) files) /\
  filter isLogError run
  = [LogError ("Failed to write file " ++ asString (relativePath locked)
                 ++ ": " ++ errorToString error)] /\
  filter isShowNotice run
  = [ShowNotice ("Failed to write file " ++ asString (relativePath locked))].
Proof.
  intros Hk Houtcomes run. subst run. unfold downloadFiles.
  destruct (downloadFilesFrom_run files rootPath 0 (List.length files) w) as [Hrun _].
  rewrite Hrun, Houtcomes.
  exact (turns_mkdir_failure rootPath locked error files k 0 (List.length files) Hk).
Qed.

Lemma length_turns_all_written (rest : list (Downloadable Path)) (rootPath : Path) :
  forall i total : nat,
    List.length (turnsTrace i total rest rootPath (repeat Written (List.length rest)))
    = 3 * List.length rest.
Proof.
  induction rest as [|file rest IH]; intros i total; simpl; [reflexivity|].
  rewrite IH. lia.
Qed.

(** X17.  When every directory can be created and every file written, the
    run is, for each file in order, its progress report, the creation of
    its directory and its write, and nothing else: no error is logged and
    no notice shown.  On an empty list nothing happens at all. *)
Theorem downloadFiles_all_written (files : list (Downloadable Path))
    (rootPath : Path) (w : W) :
  (forall file, In file files ->
                mkdirSucceeds rootPath file /\ writeSucceeds rootPath file) ->
  let run := trace (downloadFiles files rootPath w) in
  let N := List.length files in
  run = turnsTrace 0 N files rootPath (repeat Written N) /\
  List.length run = 3 * N /\
  filter isLogError run = [] /\
  filter isShowNotice run = [] /\
  (files = [] -> run = []).
Proof.
  intros Hall run N. subst run. unfold downloadFiles. fold N.
  destruct (downloadFilesFrom_run files rootPath 0 N w) as [Hrun _].
  rewrite Hrun, (runOutcomes_all_written files rootPath Hall w). fold N.
  destruct (turns_all_written files rootPath 0 N) as [_ [Hlogs Hnotices]].
  fold N in Hlogs, Hnotices.
  split; [reflexivity|]. split; [|split; [exact Hlogs|split; [exact Hnotices|]]].
  - apply length_turns_all_written.
  - intros ->. reflexivity.
Qed.

End DeliveryAccounts.

(** The first directory creation of the run is rejected; the other files
    go to the same directory, which is created at their turn. *)
Lemma downloadFiles_mkdir_failure_witness :
  nth_error repeatedFiles 0
  = Some {| relativePath := "css/a.css"; relativeDirectory := "css";
            content := TextContent "a {}"; encoding := Some utf8 |} /\
  runOutcomes (host := countingHost (Some 0) None) repeatedFiles "/out" (0, 0)
  = [MkdirFailed "EPERM: operation not permitted"; Written; Written] /\
  filter isWriteFile
    (trace (downloadFiles (host := countingHost (Some 0) None) repeatedFiles "/out" (0, 0)))
  = [WriteFile "/out/css/a.css" "a {}"; WriteFile "/out/css/b.css" "b {}"] /\
  filter isLogError
    (trace (downloadFiles (host := countingHost (Some 0) None) repeatedFiles "/out" (0, 0)))
  = [LogError "Failed to write file css/a.css: Error: EPERM: operation not permitted"] /\
  filter isShowNotice
    (trace (downloadFiles (host := countingHost (Some 0) None) repeatedFiles "/out" (0, 0)))
  = [ShowNotice "Failed to write file css/a.css"].
Proof.
  split; [reflexivity|]. split; [reflexivity|].
  exact (downloadFiles_mkdir_failure (host := countingHost (Some 0) None)
           repeatedFiles "/out" 0 _ "EPERM: operation not permitted" (0, 0)
           eq_refl eq_refl).
Defined.

Lemma downloadFiles_all_written_witness :
  (forall file, In file siteFiles ->
                mkdirSucceeds (host := lockedHost "/elsewhere") "/out" file /\
                writeSucceeds (host := lockedHost "/elsewhere") "/out" file) /\
  List.length (trace (downloadFiles (host := lockedHost "/elsewhere") siteFiles "/out" []))
  = 9.
Proof.
  assert (Hall : forall file, In file siteFiles ->
                   mkdirSucceeds (host := lockedHost "/elsewhere") "/out" file /\
                   writeSucceeds (host := lockedHost "/elsewhere") "/out" file).
  { intros file [<-|[<-|[<-|[]]]]; split; intros w; reflexivity. }
  split; [exact Hall|].
  exact (proj1 (proj2 (downloadFiles_all_written (host := lockedHost "/elsewhere")
                         siteFiles "/out" [] Hall))).
Defined.

(** ** More on the pickers *)

Section PickersWithDialog.

Context {Path : Type} {paths : PathClass Path}.
Context {W E : Type} {host : Host W E}.

(** X18.  With the native dialog, a confirmed choice is returned as a new
    path built from the string the dialog gives: the file path for the save
    picker, the first of the selected paths for the folder and file pickers
    (further selections are ignored).  The dialog is called once, the
    folder picker asking for a directory and the file picker for a file,
    and no notice is shown. *)
Theorem pickers_confirmed (defaultPath : Path) (defaultFileName : string)
    (showAllFilesOption : bool) (w : W) (chosen first : string) (others : list string) :
  ((forall options,
       fst (dialogShowSaveDialog options w)
       = {| saveCanceled := false; filePath := Some chosen |}) ->
   chosen <> "" ->
   result (showSaveDialog true defaultPath defaultFileName showAllFilesOption w)
   = Some (newPath chosen) /\
   List.length
     (trace (showSaveDialog true defaultPath defaultFileName showAllFilesOption w)) = 1 /\
   existsb isShowNotice
     (trace (showSaveDialog true defaultPath defaultFileName showAllFilesOption w))
   = false) /\
  ((forall options,
       fst (dialogShowOpenDialog options w)
       = {| openCanceled := false; filePaths := first :: others |}) ->
   result (showSelectFolderDialog true defaultPath w) = Some (newPath first) /\
   result (showSelectFileDialog true defaultPath w) = Some (newPath first) /\
   trace (showSelectFolderDialog true defaultPath w)
   = [ShowOpenDialog {| openDefaultPath := asString defaultPath;
                        openProperties := [openDirectory] |}] /\
   trace (showSelectFileDialog true defaultPath w)
   = [ShowOpenDialog {| openDefaultPath := asString defaultPath;
                        openProperties := [openFile] |}]).
Proof.
  split.
  - intros Hreply Hchosen.
    unfold showSaveDialog, bind, call, ret, result, trace.
    match goal with
    | |- context [dialogShowSaveDialog ?o w] =>
        specialize (Hreply o); destruct (dialogShowSaveDialog o w) as [reply w1]
    end.
    simpl in Hreply. subst reply. simpl.
    destruct (String.eqb_spec chosen "") as [Hempty|_]; [contradiction|].
    repeat split.
  - intros Hreply.
    repeat split;
      unfold showSelectFolderDialog, showSelectFileDialog, bind, call, ret,
        result, trace;
      match goal with
      | |- context [dialogShowOpenDialog ?o w] =>
          specialize (Hreply o); destruct (dialogShowOpenDialog o w) as [reply w1]
      end;
      simpl in Hreply; subst reply; reflexivity.
Qed.

(** X19.  With the native dialog, a reply that is not a cancellation but
    carries no selection gives no path either: a missing or empty file path
    for the save picker, an empty list of paths for the folder and file
    pickers. *)
Theorem pickers_empty_selection (defaultPath : Path) (defaultFileName : string)
    (showAllFilesOption : bool) (w : W) :
  ((forall options,
       fst (dialogShowSaveDialog options w) = {| saveCanceled := false; filePath := None |}
       \/ fst (dialogShowSaveDialog options w)
          = {| saveCanceled := false; filePath := Some "" |}) ->
   result (showSaveDialog true defaultPath defaultFileName showAllFilesOption w) = None) /\
  ((forall options,
       fst (dialogShowOpenDialog options w) = {| openCanceled := false; filePaths := [] |}) ->
   result (showSelectFolderDialog true defaultPath w) = None /\
   result (showSelectFileDialog true defaultPath w) = None).
Proof.
  split.
  - intros Hreply.
    unfold showSaveDialog, bind, call, ret, result.
    match goal with
    | |- context [dialogShowSaveDialog ?o w] =>
        specialize (Hreply o); destruct (dialogShowSaveDialog o w) as [reply w1]
    end.
    simpl in Hreply. destruct Hreply as [-> | ->]; reflexivity.
  - intros Hreply.
    split;
      unfold showSelectFolderDialog, showSelectFileDialog, bind, call, ret, result;
      match goal with
      | |- context [dialogShowOpenDialog ?o w] =>
          specialize (Hreply o); destruct (dialogShowOpenDialog o w) as [reply w1]
      end;
      simpl in Hreply; subst reply; reflexivity.
Qed.

End PickersWithDialog.


(** ** The colour sampler *)

(** *** Matching *)

Lemma string_append_assoc (s t u : string) : (s ++ t) ++ u = s ++ t ++ u.
Proof.
  induction s as [|c s IH]; simpl; [reflexivity | now rewrite IH].
Qed.

Lemma string_append_nil (s : string) : s ++ "" = s.
Proof.
  induction s as [|c s IH]; simpl; [reflexivity | now rewrite IH].
Qed.

Lemma matchRepeat_unfold {R : Type} (member : ascii -> bool) (atLeast : nat)
    (continue : string -> string -> option R) (input taken : string) :
  matchRepeat member atLeast continue input taken
  = let stop :=
      if (atLeast <=? String.length taken)%nat then continue input taken else None in
    match input with
    | String c rest =>
        if member c then
          match matchRepeat member atLeast continue rest (taken ++ String c "") with
          | Some found => Some found
          | None => stop
          end
        else stop
    | EmptyString => stop
    end.
Proof. destruct input; reflexivity. Qed.

(** A repetition followed by something that matches takes the whole run. *)
Lemma matchRepeat_run {R : Type} (member : ascii -> bool) (atLeast : nat)
    (continue : string -> string -> option R) (tail : string) (found : R) :
  stopsRun member tail = true ->
  forall run taken,
    everyChar member run = true ->
    atLeast <= String.length (taken ++ run) ->
    continue tail (taken ++ run) = Some found ->
    matchRepeat member atLeast continue (run ++ tail) taken = Some found.
Proof.
  intros Hstop. induction run as [|c run IH]; intros taken Hrun Hlen Hnext.
  - rewrite string_append_nil in *. simpl append.
    rewrite matchRepeat_unfold. cbv zeta.
    apply Nat.leb_le in Hlen. rewrite Hlen, Hnext.
    destruct tail as [|d tail]; [reflexivity|].
    simpl in Hstop. now destruct (member d).
  - simpl in Hrun. apply andb_prop in Hrun as [Hc Hrun].
    change (String c run ++ tail) with (String c (run ++ tail)).
    rewrite matchRepeat_unfold. cbv zeta. rewrite Hc.
    rewrite (IH (taken ++ String c "")); [reflexivity | exact Hrun | |];
      rewrite string_append_assoc; assumption.
Qed.

Lemma matchItems_literal (c : ascii) (rest : list Item) (input : string)
    (captures : list string) :
  matchItems (Literal c :: rest) (String c input) captures
  = matchItems rest input captures.
Proof. simpl. now rewrite Ascii.eqb_refl. Qed.

Lemma matchItems_repeat (class : CharClass) (atLeast : nat) (captured : bool)
    (rest : list Item) (input : string) (captures : list string) :
  matchItems (Repeat class atLeast captured :: rest) input captures
  = matchRepeat (inClass class) atLeast
      (fun input' taken =>
         matchItems rest input'
           (if captured then (captures ++ [taken])%list else captures))
      input "".
Proof. reflexivity. Qed.

Lemma digit_is_no_space (c : ascii) :
  inClass digitClass c = true -> inClass spaceClass c = false.
Proof.
  unfold inClass. intros Hdigit.
  apply andb_prop in Hdigit as [Hlow Hhigh].
  apply Nat.leb_le in Hlow, Hhigh.
  destruct (Nat.leb_spec 9 (nat_of_ascii c)); destruct (Nat.leb_spec (nat_of_ascii c) 13);
    destruct (Nat.eqb_spec (nat_of_ascii c) 32);
    destruct (Nat.eqb_spec (nat_of_ascii c) 160); simpl; try reflexivity; lia.
Qed.

Lemma digits_stop_spaces (digits tail : string) :
  everyChar (inClass digitClass) digits = true -> digits <> "" ->
  stopsRun (inClass spaceClass) (digits ++ tail) = true.
Proof.
  destruct digits as [|c digits]; [congruence|]. intros Hdigits _.
  change (negb (inClass spaceClass c) = true).
  change (inClass digitClass c && everyChar (inClass digitClass) digits = true)
    in Hdigits.
  apply andb_prop in Hdigits as [Hc _]. now rewrite (digit_is_no_space c Hc).
Qed.

Lemma length_nonempty (s : string) : s <> "" -> 1 <= String.length s.
Proof. destruct s; [congruence | simpl; lia]. Qed.

(** The part of the pattern after the opening parenthesis, on three runs of
    digits separated by commas and white space. *)
Lemma match_components (d1 d2 d3 s1 s2 tail : string) (captures : list string) :
  everyChar (inClass digitClass) d1 = true -> d1 <> "" ->
  everyChar (inClass digitClass) d2 = true -> d2 <> "" ->
  everyChar (inClass digitClass) d3 = true -> d3 <> "" ->
  everyChar (inClass spaceClass) s1 = true ->
  everyChar (inClass spaceClass) s2 = true ->
  matchItems
    [ Repeat digitClass 1 true; Literal ","; Repeat spaceClass 0 false;
      Repeat digitClass 1 true; Literal ","; Repeat spaceClass 0 false;
      Repeat digitClass 1 true; Literal ")" ]%char
    (d1 ++ "," ++ s1 ++ d2 ++ "," ++ s2 ++ d3 ++ ")" ++ tail) captures
  = Some (captures ++ [d1; d2; d3])%list.
Proof.
  intros Hd1 Hn1 Hd2 Hn2 Hd3 Hn3 Hs1 Hs2.
  rewrite matchItems_repeat.
  apply matchRepeat_run; [reflexivity | exact Hd1 | now apply length_nonempty |].
  change ("," ++ s1 ++ d2 ++ "," ++ s2 ++ d3 ++ ")" ++ tail)
    with (String "," (s1 ++ d2 ++ "," ++ s2 ++ d3 ++ ")" ++ tail)).
  rewrite matchItems_literal, matchItems_repeat.
  apply matchRepeat_run;
    [now apply digits_stop_spaces | exact Hs1 | simpl; lia |].
  rewrite matchItems_repeat.
  apply matchRepeat_run; [reflexivity | exact Hd2 | now apply length_nonempty |].
  change ("," ++ s2 ++ d3 ++ ")" ++ tail)
    with (String "," (s2 ++ d3 ++ ")" ++ tail)).
  rewrite matchItems_literal, matchItems_repeat.
  apply matchRepeat_run;
    [now apply digits_stop_spaces | exact Hs2 | simpl; lia |].
  rewrite matchItems_repeat.
  apply matchRepeat_run; [reflexivity | exact Hd3 | now apply length_nonempty |].
  change (")" ++ tail) with (String ")" tail).
  rewrite matchItems_literal. simpl.
  now rewrite <- !app_assoc.
Qed.

Lemma matchItems_optional_taken (c : ascii) (rest : list Item) (input : string)
    (captures found : list string) :
  matchItems rest input captures = Some found ->
  matchItems (Optional c :: rest) (String c input) captures = Some found.
Proof. intros Hrest. simpl. now rewrite Ascii.eqb_refl, Hrest. Qed.

Lemma regExpMatch_at_start (items : list Item) (input : string) (found : list string) :
  matchItems items input [] = Some found -> regExpMatch items input = Some found.
Proof. intros Hfound. destruct input; simpl; now rewrite Hfound. Qed.

Lemma toColorObject_components (d1 d2 d3 s1 s2 tail : string) :
  everyChar (inClass digitClass) d1 = true -> d1 <> "" ->
  everyChar (inClass digitClass) d2 = true -> d2 <> "" ->
  everyChar (inClass digitClass) d3 = true -> d3 <> "" ->
  everyChar (inClass spaceClass) s1 = true ->
  everyChar (inClass spaceClass) s2 = true ->
  toColorObject ("rgb(" ++ d1 ++ "," ++ s1 ++ d2 ++ "," ++ s2 ++ d3 ++ ")" ++ tail)
  = Some {| red := parseInt d1; green := parseInt d2; blue := parseInt d3; alpha := 1 |}.
Proof.
  intros Hd1 Hn1 Hd2 Hn2 Hd3 Hn3 Hs1 Hs2. unfold toColorObject.
  rewrite (regExpMatch_at_start rgbPattern _ [d1; d2; d3]); [reflexivity|].
  change ("rgb(" ++ d1 ++ "," ++ s1 ++ d2 ++ "," ++ s2 ++ d3 ++ ")" ++ tail)
    with (String "r" (String "g" (String "b" (String "("
            (d1 ++ "," ++ s1 ++ d2 ++ "," ++ s2 ++ d3 ++ ")" ++ tail))))).
  unfold rgbPattern. rewrite !matchItems_literal.
  apply matchItems_optional_taken. rewrite matchItems_literal.
  now apply (match_components d1 d2 d3 s1 s2 tail []).
Qed.

(** *** Digits *)

Lemma digitsOf_unfold (radix fuel n : nat) (digits : string) :
  digitsOf radix (S fuel) n digits
  = if (n / radix =? 0)%nat then String (digitChar (n mod radix)) digits
    else digitsOf radix fuel (n / radix) (String (digitChar (n mod radix)) digits).
Proof. reflexivity. Qed.

Lemma decimal_digitChar (d : nat) :
  d < 10 ->
  inClass digitClass (digitChar d) = true /\ digitValue (digitChar d) = d.
Proof.
  intros Hd. do 10 (destruct d as [|d]; [split; reflexivity|]). lia.
Qed.

Lemma parseDigits_append (s t : string) :
  forall value, parseDigits value (s ++ t) = parseDigits (parseDigits value s) t.
Proof.
  induction s as [|c s IH]; intros value; simpl; [reflexivity | apply IH].
Qed.

Lemma everyChar_append (member : ascii -> bool) (s t : string) :
  everyChar member (s ++ t) = everyChar member s && everyChar member t.
Proof.
  induction s as [|c s IH]; simpl; [reflexivity|].
  now rewrite IH, andb_assoc.
Qed.

Lemma everyChar_single (member : ascii -> bool) (c : ascii) :
  everyChar member (String c "") = member c.
Proof. simpl. apply andb_true_r. Qed.

Lemma parseDigits_single (value : nat) (c : ascii) :
  parseDigits value (String c "") = value * 10 + digitValue c.
Proof. reflexivity. Qed.

Lemma digitsOf_decimal (fuel : nat) :
  forall n digits, n < fuel ->
    exists written,
      digitsOf 10 fuel n digits = written ++ digits /\
      everyChar (inClass digitClass) written = true /\
      written <> "" /\
      parseDigits 0 written = n.
Proof.
  induction fuel as [|fuel IH]; intros n digits Hfuel; [lia|].
  rewrite digitsOf_unfold.
  destruct (decimal_digitChar (n mod 10)) as [Hclass Hvalue];
    [apply Nat.mod_upper_bound; lia|].
  destruct (Nat.eqb_spec (n / 10) 0) as [Hlast|Hmore].
  - exists (String (digitChar (n mod 10)) ""). split; [reflexivity|].
    split; [now rewrite everyChar_single|]. split; [discriminate|].
    rewrite parseDigits_single, Hvalue. pose proof (Nat.div_mod_eq n 10). lia.
  - destruct (IH (n / 10) (String (digitChar (n mod 10)) digits)) as
        [written [Hwritten [Hdigits [Hnonempty Hparsed]]]].
    { pose proof (Nat.div_mod_eq n 10).
      pose proof (Nat.mod_upper_bound n 10 ltac:(lia)). lia. }
    exists (written ++ String (digitChar (n mod 10)) "").
    split; [|split; [|split]].
    + now rewrite Hwritten, string_append_assoc.
    + now rewrite everyChar_append, Hdigits, everyChar_single.
    + destruct written; [congruence | discriminate].
    + rewrite parseDigits_append, Hparsed, parseDigits_single, Hvalue.
      pose proof (Nat.div_mod_eq n 10). lia.
Qed.

Lemma decimal_round_trip (n : nat) :
  everyChar (inClass digitClass) (Number_toString n 10) = true /\
  Number_toString n 10 <> "" /\
  parseInt (Number_toString n 10) = n.
Proof.
  unfold Number_toString, parseInt.
  destruct (digitsOf_decimal (S n) n "" ltac:(lia))
    as [written [Hwritten [Hdigits [Hnonempty Hparsed]]]].
  rewrite string_append_nil in Hwritten. rewrite Hwritten. now repeat split.
Qed.

Lemma toColorObject_decimal (r g b : nat) (tail : string) :
  toColorObject ("rgb(" ++ Number_toString r 10 ++ ", " ++ Number_toString g 10
                 ++ ", " ++ Number_toString b 10 ++ ")" ++ tail)
  = Some {| red := r; green := g; blue := b; alpha := 1 |}.
Proof.
  destruct (decimal_round_trip r) as [Hr [Hrn Hrv]].
  destruct (decimal_round_trip g) as [Hg [Hgn Hgv]].
  destruct (decimal_round_trip b) as [Hb [Hbn Hbv]].
  pose proof (toColorObject_components
                (Number_toString r 10) (Number_toString g 10) (Number_toString b 10)
                " " " " tail Hr Hrn Hg Hgn Hb Hbn eq_refl eq_refl) as Hmatch.
  rewrite Hrv, Hgv, Hbv in Hmatch. exact Hmatch.
Qed.

(** X20.  [toColorObject] reads back the colour that the browser writes:
    on ["rgb(R, G, B)"], with the three components in decimal and no
    greater than 2^53 (so that [parseInt] reads them exactly), it returns
    the components [R], [G] and [B] and alpha 1, whatever follows the
    closing parenthesis; the white space after the commas may be left out. *)
Theorem toColorObject_round_trip (r g b : nat) (tail : string) :
  (Z.of_nat r <= 2 ^ 53)%Z -> (Z.of_nat g <= 2 ^ 53)%Z -> (Z.of_nat b <= 2 ^ 53)%Z ->
  toColorObject ("rgb(" ++ Number_toString r 10 ++ ", " ++ Number_toString g 10
                 ++ ", " ++ Number_toString b 10 ++ ")" ++ tail)
  = Some {| red := r; green := g; blue := b; alpha := 1 |} /\
  toColorObject ("rgb(" ++ Number_toString r 10 ++ "," ++ Number_toString g 10
                 ++ "," ++ Number_toString b 10 ++ ")" ++ tail)
  = Some {| red := r; green := g; blue := b; alpha := 1 |}.
Proof.
  intros _ _ _. split; [apply toColorObject_decimal|].
  destruct (decimal_round_trip r) as [Hr [Hrn Hrv]].
  destruct (decimal_round_trip g) as [Hg [Hgn Hgv]].
  destruct (decimal_round_trip b) as [Hb [Hbn Hbv]].
  pose proof (toColorObject_components
                (Number_toString r 10) (Number_toString g 10) (Number_toString b 10)
                "" "" tail Hr Hrn Hg Hgn Hb Hbn eq_refl eq_refl) as Hmatch.
  rewrite Hrv, Hgv, Hbv in Hmatch. exact Hmatch.
Qed.

Lemma toColorObject_round_trip_witness :
  (Z.of_nat 255 <= 2 ^ 53)%Z /\ (Z.of_nat 0 <= 2 ^ 53)%Z /\ (Z.of_nat 16 <= 2 ^ 53)%Z /\
  toColorObject "rgb(255, 0, 16)"
  = Some {| red := 255; green := 0; blue := 16; alpha := 1 |} /\
  toColorObject "rgb(255,0,16)"
  = Some {| red := 255; green := 0; blue := 16; alpha := 1 |}.
Proof.
  assert (Hr : (Z.of_nat 255 <= 2 ^ 53)%Z) by (vm_compute; discriminate).
  assert (Hg : (Z.of_nat 0 <= 2 ^ 53)%Z) by (vm_compute; discriminate).
  assert (Hb : (Z.of_nat 16 <= 2 ^ 53)%Z) by (vm_compute; discriminate).
  split; [exact Hr|]. split; [exact Hg|]. split; [exact Hb|].
  exact (toColorObject_round_trip 255 0 16 "" Hr Hg Hb).
Defined.

(** *** Colours that are not read *)

Lemma matchItems_literal_miss (c x : ascii) (rest : list Item) (input : string)
    (captures : list string) :
  Ascii.eqb x c = false ->
  matchItems (Literal c :: rest) (String x input) captures = None.
Proof. intros Hmiss. simpl. now rewrite Hmiss. Qed.

Lemma regExpMatch_unfold (items : list Item) (input : string) :
  regExpMatch items input
  = match matchItems items input [] with
    | Some captures => Some captures
    | None =>
        match input with
        | EmptyString => None
        | String _ rest => regExpMatch items rest
        end
    end.
Proof. destruct input; reflexivity. Qed.

Lemma regExpMatch_needs_r (input : string) :
  everyChar (fun c => negb (Ascii.eqb c "r")) input = true ->
  regExpMatch rgbPattern input = None.
Proof.
  induction input as [|c input IH]; intros Hnone; [reflexivity|].
  change (negb (Ascii.eqb c "r")
          && everyChar (fun c => negb (Ascii.eqb c "r")) input = true) in Hnone.
  apply andb_prop in Hnone as [Hc Hrest]. apply negb_true_iff in Hc.
  rewrite regExpMatch_unfold. unfold rgbPattern at 1.
  rewrite (matchItems_literal_miss _ _ _ _ _ Hc). now apply IH.
Qed.

Lemma toColorObject_rgba (rest : string) :
  everyChar (fun c => negb (Ascii.eqb c "r")) rest = true ->
  toColorObject ("rgba(" ++ rest) = None.
Proof.
  intros Hrest. unfold toColorObject.
  change ("rgba(" ++ rest)
    with (String "r" (String "g" (String "b" (String "a" (String "(" rest))))).
  do 5 (rewrite regExpMatch_unfold; simpl matchItems; cbv iota).
  now rewrite regExpMatch_needs_r.
Qed.

(** *** Hexadecimal components *)

Lemma length_digitsOf (radix fuel : nat) :
  forall n digits,
    String.length digits <= String.length (digitsOf radix fuel n digits).
Proof.
  induction fuel as [|fuel IH]; intros n digits; [simpl; lia|].
  rewrite digitsOf_unfold. destruct (n / radix =? 0)%nat; [simpl; lia|].
  specialize (IH (n / radix) (String (digitChar (n mod radix)) digits)).
  simpl in IH. lia.
Qed.

Lemma hexadecimal_three_digits (n : nat) :
  256 <= n -> 3 <= String.length (Number_toString n 16).
Proof.
  intros Hn. unfold Number_toString.
  assert (H1 : 16 <= n / 16) by (apply Nat.div_le_lower_bound; lia).
  assert (H2 : 1 <= n / 16 / 16) by (apply Nat.div_le_lower_bound; lia).
  replace (S n) with (S (S (S (n - 2)))) by lia.
  rewrite digitsOf_unfold.
  destruct (Nat.eqb_spec (n / 16) 0) as [Hzero|_]; [lia|].
  rewrite digitsOf_unfold.
  destruct (Nat.eqb_spec (n / 16 / 16) 0) as [Hzero|_]; [lia|].
  rewrite digitsOf_unfold.
  destruct (n / 16 / 16 / 16 =? 0)%nat; [simpl; lia|].
  match goal with
  | |- 3 <= String.length (digitsOf ?r ?f ?m ?ds) =>
      pose proof (length_digitsOf r f m ds) as Hlen
  end.
  simpl String.length in Hlen at 1. lia.
Qed.

Lemma hexadecimal_padded (n : nat) :
  n < 256 ->
  padStringBeggining (Number_toString n 16) 2 "0"
  = Returned (String (digitChar (n / 16)) (String (digitChar (n mod 16)) "")).
Proof.
  intros Hn.
  assert (Hall :
            forallb
              (fun n =>
                 match padStringBeggining (Number_toString n 16) 2 "0" with
                 | Returned s =>
                     String.eqb s
                       (String (digitChar (n / 16)) (String (digitChar (n mod 16)) ""))
                 | Thrown _ => false
                 end) (seq 0 256) = true) by (vm_compute; reflexivity).
  rewrite forallb_forall in Hall.
  specialize (Hall n ltac:(apply in_seq; lia)).
  destruct (padStringBeggining (Number_toString n 16) 2 "0") as [s|e];
    [|discriminate].
  apply String.eqb_eq in Hall. now subst s.
Qed.

Lemma hexadecimal_overflow (n : nat) :
  256 <= n ->
  padStringBeggining (Number_toString n 16) 2 "0"
  = Thrown (RangeError "Invalid count value").
Proof.
  intros Hn. pose proof (hexadecimal_three_digits n Hn) as Hlen.
  unfold padStringBeggining, String_repeat.
  destruct (Z.ltb_spec (2 - Z.of_nat (String.length (Number_toString n 16))) 0)
    as [_|Hno]; [reflexivity | lia].
Qed.

(** *** The sampler *)

Section SamplerProperties.

Context {Element Float : Type} {document : Document Element} {floats : Floats Float}.

Variable variable : string.
Variable testParentEl : Element.

(** The opacity read, with 1 in place of a value that is not a number. *)
Local Abbreviation opacityRead :=
  (if isNaN (parseFloat (computedOpacity variable testParentEl))
   then ofNat 1
   else parseFloat (computedOpacity variable testParentEl)).

(** X21.  A computed colour written with an alpha channel,
    ["rgba(...)"], is not read: [toColorObject] finds no match, and the
    sampler answers white, ["ffffff"], with the opacity alone as [a]. *)
Theorem sampleCSSColorHex_rgba (rest : string) :
  computedColor variable testParentEl = "rgba(" ++ rest ->
  everyChar (fun c => negb (Ascii.eqb c "r")) rest = true ->
  toColorObject (computedColor variable testParentEl) = None /\
  fst (sampleCSSColorHex variable testParentEl)
  = Returned {| sampleA := opacityRead; sampleHex := "ffffff" |}.
Proof.
  intros Hcolor Hrest. unfold sampleCSSColorHex.
  rewrite Hcolor, (toColorObject_rgba rest Hrest). split; reflexivity.
Qed.

(** X22.  For a computed colour ["rgb(R, G, B)"] with the three components
    below 256, the sampler returns a [hex] of exactly six characters, two
    hexadecimal digits (lower case, zero padded) for each of red, green and
    blue in this order, and [a] is the opacity times 1. *)
Theorem sampleCSSColorHex_hex (r g b : nat) :
  computedColor variable testParentEl
  = "rgb(" ++ Number_toString r 10 ++ ", " ++ Number_toString g 10
    ++ ", " ++ Number_toString b 10 ++ ")" ->
  r < 256 -> g < 256 -> b < 256 ->
  fst (sampleCSSColorHex variable testParentEl)
  = Returned
      {| sampleA := times opacityRead (ofNat 1);
         sampleHex :=
           String (digitChar (r / 16)) (String (digitChar (r mod 16))
           (String (digitChar (g / 16)) (String (digitChar (g mod 16))
           (String (digitChar (b / 16)) (String (digitChar (b mod 16)) ""))))) |}.
Proof.
  intros Hcolor Hr Hg Hb. unfold sampleCSSColorHex.
  rewrite Hcolor.
  pose proof (toColorObject_decimal r g b "") as Hread.
  rewrite string_append_nil in Hread. rewrite Hread. simpl red. simpl green.
  simpl blue. simpl alpha.
  rewrite (hexadecimal_padded r Hr), (hexadecimal_padded g Hg),
    (hexadecimal_padded b Hb).
  reflexivity.
Qed.

(** X23.  For a computed colour ["rgb(R, G, B)"] with a component of 256
    or more, the sampler throws a [RangeError], that of [repeat]: the
    component has three hexadecimal digits or more, and the padding to two
    asks for a negative number of zeros.  The test element has been removed
    by then. *)
Theorem sampleCSSColorHex_overflow (r g b : nat) :
  computedColor variable testParentEl
  = "rgb(" ++ Number_toString r 10 ++ ", " ++ Number_toString g 10
    ++ ", " ++ Number_toString b 10 ++ ")" ->
  256 <= r \/ 256 <= g \/ 256 <= b ->
  (exists message,
      fst (sampleCSSColorHex variable testParentEl) = Thrown (RangeError message)) /\
  last (snd (sampleCSSColorHex variable testParentEl)) AppendChild = RemoveElement.
Proof.
  intros Hcolor Hlarge. split; [|reflexivity].
  exists "Invalid count value". unfold sampleCSSColorHex.
  rewrite Hcolor.
  pose proof (toColorObject_decimal r g b "") as Hread.
  rewrite string_append_nil in Hread. rewrite Hread. simpl red. simpl green.
  simpl blue. simpl alpha. cbv beta iota zeta. unfold fst.
  destruct (Nat.lt_ge_cases r 256) as [Hr|Hr];
    [rewrite (hexadecimal_padded r Hr) | now rewrite (hexadecimal_overflow r Hr)].
  destruct (Nat.lt_ge_cases g 256) as [Hg|Hg];
    [rewrite (hexadecimal_padded g Hg) | now rewrite (hexadecimal_overflow g Hg)].
  destruct (Nat.lt_ge_cases b 256) as [Hb|Hb];
    [lia | now rewrite (hexadecimal_overflow b Hb)].
Qed.

End SamplerProperties.

Lemma sampleCSSColorHex_rgba_witness :
  computedColor (Document := plainDocument "rgba(255, 0, 16, 0.5)" "1") "--accent" tt
  = "rgba(" ++ "255, 0, 16, 0.5)" /\
  everyChar (fun c => negb (Ascii.eqb c "r")) "255, 0, 16, 0.5)" = true /\
  fst (sampleCSSColorHex (document := plainDocument "rgba(255, 0, 16, 0.5)" "1")
         (floats := wholeFloats) "--accent" tt)
  = Returned {| sampleA := Some 1; sampleHex := "ffffff" |}.
Proof.
  split; [reflexivity|]. split; [reflexivity|].
  exact (proj2 (sampleCSSColorHex_rgba
                  (document := plainDocument "rgba(255, 0, 16, 0.5)" "1")
                  (floats := wholeFloats) "--accent" tt "255, 0, 16, 0.5)"
                  eq_refl eq_refl)).
Defined.

Lemma sampleCSSColorHex_hex_witness :
  computedColor (Document := plainDocument "rgb(255, 0, 16)" "1") "--accent" tt
  = "rgb(" ++ Number_toString 255 10 ++ ", " ++ Number_toString 0 10
    ++ ", " ++ Number_toString 16 10 ++ ")" /\
  255 < 256 /\ 0 < 256 /\ 16 < 256 /\
  fst (sampleCSSColorHex (document := plainDocument "rgb(255, 0, 16)" "1")
         (floats := wholeFloats) "--accent" tt)
  = Returned {| sampleA := Some 1; sampleHex := "ff0010" |}.
Proof.
  split; [reflexivity|]. split; [lia|]. split; [lia|]. split; [lia|].
  exact (sampleCSSColorHex_hex (document := plainDocument "rgb(255, 0, 16)" "1")
           (floats := wholeFloats) "--accent" tt 255 0 16 eq_refl
           ltac:(lia) ltac:(lia) ltac:(lia)).
Defined.

Lemma sampleCSSColorHex_overflow_witness :
  computedColor (Document := plainDocument "rgb(12, 300, 16)" "1") "--accent" tt
  = "rgb(" ++ Number_toString 12 10 ++ ", " ++ Number_toString 300 10
    ++ ", " ++ Number_toString 16 10 ++ ")" /\
  (256 <= 12 \/ 256 <= 300 \/ 256 <= 16) /\
  exists message,
    fst (sampleCSSColorHex (document := plainDocument "rgb(12, 300, 16)" "1")
           (floats := wholeFloats) "--accent" tt)
    = Thrown (RangeError message).
Proof.
  assert (Hlarge : 256 <= 12 \/ 256 <= 300 \/ 256 <= 16) by (right; left; lia).
  split; [reflexivity|]. split; [exact Hlarge|].
  exact (proj1 (sampleCSSColorHex_overflow
                  (document := plainDocument "rgb(12, 300, 16)" "1")
                  (floats := wholeFloats) "--accent" tt 12 300 16 eq_refl Hlarge)).
Defined.

Lemma pickers_confirmed_witness :
  (forall options,
      fst (dialogShowSaveDialog (Host := confirmingHost) options [])
      = {| saveCanceled := false; filePath := Some "/vault/out/site.html" |}) /\
  "/vault/out/site.html" <> "" /\
  result (showSaveDialog (paths := vaultPaths) (host := confirmingHost)
            true "/vault/export/index.html" "site.html" true [])
  = Some "/vault/out/site.html" /\
  result (showSelectFolderDialog (paths := vaultPaths) (host := confirmingHost)
            true "/vault/export" [])
  = Some "/vault/notes".
Proof.
  assert (Hsave : forall options,
             fst (dialogShowSaveDialog (Host := confirmingHost) options [])
             = {| saveCanceled := false; filePath := Some "/vault/out/site.html" |})
    by (intros; reflexivity).
  assert (Hopen : forall options,
             fst (dialogShowOpenDialog (Host := confirmingHost) options [])
             = {| openCanceled := false;
                  filePaths := "/vault/notes" :: ["/vault/attachments"] |})
    by (intros; reflexivity).
  assert (Hchosen : "/vault/out/site.html" <> "") by discriminate.
  split; [exact Hsave|]. split; [exact Hchosen|]. split.
  - exact (proj1 (proj1 (pickers_confirmed (paths := vaultPaths) (host := confirmingHost)
                           "/vault/export/index.html" "site.html" true []
                           "/vault/out/site.html" "/vault/notes" ["/vault/attachments"])
                    Hsave Hchosen)).
  - exact (proj1 (proj2 (pickers_confirmed (paths := vaultPaths) (host := confirmingHost)
                           "/vault/export" "site.html" true []
                           "/vault/out/site.html" "/vault/notes" ["/vault/attachments"])
                    Hopen)).
Defined.

Lemma pickers_empty_selection_witness :
  (forall options,
      fst (dialogShowOpenDialog (Host := emptyHandedHost) options [])
      = {| openCanceled := false; filePaths := [] |}) /\
  result (showSelectFolderDialog (paths := vaultPaths) (host := emptyHandedHost)
            true "/vault/export" []) = None /\
  result (showSelectFileDialog (paths := vaultPaths) (host := emptyHandedHost)
            true "/vault/export" []) = None.
Proof.
  assert (Hopen : forall options,
             fst (dialogShowOpenDialog (Host := emptyHandedHost) options [])
             = {| openCanceled := false; filePaths := [] |})
    by (intros; reflexivity).
  split; [exact Hopen|].
  exact (proj2 (pickers_empty_selection (paths := vaultPaths) (host := emptyHandedHost)
                  "/vault/export" "site.html" true []) Hopen).
Defined.

Lemma levenshteinDistance_one_edit_witness :
  edit (list_ascii_of_string "cat") (list_ascii_of_string "cart") /\
  levenshteinDistance "cat" "cart" = 1.
Proof.
  assert (Hedit : edit (list_ascii_of_string "cat") (list_ascii_of_string "cart"))
    by (simpl; apply edit_later, edit_later, edit_insert).
  split; [exact Hedit|].
  exact (proj2 (levenshteinDistance_one_edit "cat" "cart") Hedit).
Defined.

Lemma waitUntil_invariant_witness :
  settled (waitUntil (fun _ => false) 1000%Z 100%Z 4) = None /\
  intervalActive (waitUntil (fun _ => false) 1000%Z 100%Z 4) = true.
Proof.
  split; [reflexivity|].
  exact (proj1 (proj1 (waitUntil_invariant (fun _ => false) 1000%Z 100%Z 4)) eq_refl).
Defined.
